(** * SpaceSparseVectorInter: sparse-vector codec adapter, dense projection
      and overlap statistics (similarity_search/src/space/space_sparse_vector_inter.cc)

    Shallow embedding of the member functions of [SpaceSparseVectorInter<dist_t>]
    and the properties the specification states about them. *)

From stdpp Require Import base list numbers gmap.
From Stdlib.Strings Require Byte.
From Stdlib Require QArith.

Local Open Scope N_scope.

(** ** Results of running C++ code

    A call either returns, or leaves defined behaviour (an unchecked
    [operator[]] outside the vector, an integer division by zero, a
    deallocation of a block that is not live), or throws, or is still
    looping when the fuel given to its loops is used up. *)

Inductive fault : Type :=
  | OutOfBounds
  | DivByZero
  | BadFree
  | Thrown.

Inductive outcome (T : Type) : Type :=
  | Done (t : T)
  | Fault (e : fault)
  | OutOfFuel.

Arguments Done {T} t.
Arguments Fault {T} e.
Arguments OutOfFuel {T}.

Definition obind {T U : Type} (m : outcome T) (k : T -> outcome U) : outcome U :=
  match m with
  | Done t => k t
  | Fault e => Fault e
  | OutOfFuel => OutOfFuel
  end.

Notation "'let*' x := m 'in' k" := (obind m (fun x => k))
  (at level 10, x name, m at level 100, k at level 200).

(** [while (cond) body] with a bound on the number of iterations. *)
Fixpoint while_ {S : Type} (fuel : nat) (cond : S -> bool)
    (body : S -> outcome S) (s : S) : outcome S :=
  if cond s then
    match fuel with
    | O => OutOfFuel
    | Datatypes.S fuel' => let* s' := body s in while_ fuel' cond body s'
    end
  else Done s.

(** [uint32_t] arithmetic: [A++] on a 32-bit cursor. *)
Definition u32 (n : N) : N := n mod 2 ^ 32.

(** [v.size()] *)
Definition vsize {T : Type} (v : list T) : N := N.of_nat (length v).

(** [v[i]] on a [std::vector]: unchecked, undefined outside the vector. *)
Definition at_ {T : Type} (v : list T) (i : N) : outcome T :=
  match v !! N.to_nat i with
  | Some x => Done x
  | None => Fault OutOfBounds
  end.

(** ** Arithmetic of the template parameter

    [V] is [dist_t] (the type of [val_] and of the dense slots), [F] is
    [float] (the type of the norms and of the [OverlapInfo] statistics).
    Each operation is one C++ expression form of the source. *)

Class Arith (V F : Type) := {
  Vzero : V;                       (* static_cast<dist_t>(0) *)
  Vadd : V -> V -> V;              (* x += v            (dist_t) *)
  Fzero : F;                       (* 0                 (float)  *)
  Fadd : F -> V -> F;              (* x += v            *)
  Fmadd : F -> V -> V -> F;        (* x += a*b          *)
  Fset : V -> F;                   (* x = v             *)
  Fsqrt : F -> F;                  (* sqrt(x)           *)
  Fpos : F -> bool;                (* x > 0             *)
  Fis0 : F -> bool;                (* the divisor x of 1.0/x is zero *)
  Frecip : F -> F;                 (* 1.0/x             *)
  Fmul : F -> F -> F;              (* x *= inv          *)
  Fpos_nonzero : forall x, Fpos x = true -> Fis0 x = false
}.

(** ** Data model *)

(** [SparseVectElem<dist_t>]: [id_] is a [uint32_t], [val_] a [dist_t]. *)
Record SparseVectElem (V : Type) : Type := mkElem {
  id_ : N;
  val_ : V
}.

Arguments mkElem {V} id_ val_.
Arguments id_ {V} s.
Arguments val_ {V} s.

(** A block obtained from [new char[n]]: its address and its content. *)
Record buffer : Type := mkBuffer {
  addr : positive;
  bytes : list Byte.byte
}.

(** Modelled from the spec: the [Object] class is declared in a header
    that is missing.  A record of identifier, label, payload length and
    payload; it takes over the payload buffer it is built from.  [data] is
    what [obj->data()] points to ([None] for a null pointer). *)
Record Object : Type := mkObject {
  obj_id : Z;
  obj_label : Z;
  datalength : N;
  data : option buffer
}.

(** The free store as far as the payload buffers are concerned: the
    addresses of the live [new char[]] blocks and the log of the
    [delete []] calls, newest first. *)
Record heap : Type := mkHeap {
  live : gset positive;
  freed : list positive
}.

(** [delete [] p]; on a null pointer it does nothing. *)
Definition delete_arr (p : option buffer) (h : heap) : outcome heap :=
  match p with
  | None => Done h
  | Some b =>
      if bool_decide (addr b ∈ live h)
      then Done (mkHeap (live h ∖ {[addr b]}) (addr b :: freed h))
      else Fault BadFree
  end.

(** What a call [PackSparseElements(InpVect, pData, dataLen)] leaves behind:
    whether it threw, and the values of the two reference arguments
    ([pData] starts as [NULL], [dataLen] as [0]). *)
Record packed : Type := mkPacked {
  threw : bool;
  pData : option buffer;
  dataLen : N
}.

(** Modelled from the spec: the [OverlapInfo] struct is declared in
    space_sparse_vector_inter.h, which is missing; the count is an integer,
    the five statistics are floating point, and all start at zero. *)
Record OverlapInfo (F : Type) : Type := mkOverlapInfo {
  overlap_qty_ : N;
  overlap_dotprod_norm_ : F;
  overlap_sum_left_norm_ : F;
  overlap_sum_right_norm_ : F;
  diff_sum_left_norm_ : F;
  diff_sum_right_norm_ : F
}.

Arguments mkOverlapInfo {F} _ _ _ _ _ _.
Arguments overlap_qty_ {F} o.
Arguments overlap_dotprod_norm_ {F} o.
Arguments overlap_sum_left_norm_ {F} o.
Arguments overlap_sum_right_norm_ {F} o.
Arguments diff_sum_left_norm_ {F} o.
Arguments diff_sum_right_norm_ {F} o.

(** The four one-sided statistics, to name a write in the write log. *)
Inductive side_field : Type :=
  | DiffLeft
  | DiffRight
  | OverlapLeft
  | OverlapRight.

Definition side_field_eqb (f g : side_field) : bool :=
  match f, g with
  | DiffLeft, DiffLeft | DiffRight, DiffRight
  | OverlapLeft, OverlapLeft | OverlapRight, OverlapRight => true
  | _, _ => false
  end.

(** The values written to field [f], oldest first. *)
Definition writes_to {V : Type} (f : side_field) (log : list (side_field * V)) : list V :=
  snd <$> filter (fun w => side_field_eqb (fst w) f = true) log.

(** The state of the scan of [ComputeOverlapInfo]: the cursors [A] and [B],
    the result under construction, and (ghost, never read by the code) the
    log of the writes to the one-sided statistics. *)
Record scan (V F : Type) : Type := mkScan {
  curA : N;
  curB : N;
  res : OverlapInfo F;
  wlog : list (side_field * V)
}.

Arguments mkScan {V F} _ _ _ _.
Arguments curA {V F} s.
Arguments curB {V F} s.
Arguments res {V F} s.
Arguments wlog {V F} s.

Section SpaceSparseVectorInter.

Context {V F : Type} {AR : Arith V F}.

Abbreviation Elem := (SparseVectElem V).

(** [UnpackSparseElements(data, datalength, v)], declared in a header that
    is missing: any decoder. *)
Variable UnpackSparseElements : option buffer -> N -> outcome (list Elem).

(** [PackSparseElements(InpVect, pData, dataLen)], declared in the same
    missing header: any encoder, acting on the free store. *)
Variable PackSparseElements : list Elem -> heap -> packed * heap.

(** [static std::hash<size_t> indexHash]: a fixed function on [size_t]. *)
Variable indexHash : N -> N.

(** *** CreateDenseVectFromObj *)

(** [fill(pVect, pVect + nElem, 0)] on a caller-supplied array. *)
Definition fill (pVect : list V) (nElem : N) (x : V) : outcome (list V) :=
  if vsize pVect <? nElem then Fault OutOfBounds
  else Done (replicate (N.to_nat nElem) x ++ drop (N.to_nat nElem) pVect).

(** A range-based [for] over a vector. *)
Fixpoint for_each {S T : Type} (body : S -> T -> outcome S) (l : list T) (s : S) : outcome S :=
  match l with
  | [] => Done s
  | e :: l' => let* s' := body s e in for_each body l' s'
  end.

(** Lines 42-43; [%] by zero is undefined. *)
Definition dense_body (nElem : N) (pVect : list V) (e : Elem) : outcome (list V) :=
  if nElem =? 0 then Fault DivByZero
  else
    let idx := indexHash (id_ e) mod nElem in
    let* x := at_ pVect idx in
    Done (<[N.to_nat idx := Vadd x (val_ e)]> pVect).

Definition CreateDenseVectFromObj (obj : Object) (pVect : list V) (nElem : N) : outcome (list V) :=
  let* pVect := fill pVect nElem Vzero in
  let* target := UnpackSparseElements (data obj) (datalength obj) in
  for_each (dense_body nElem) target pVect.

(** *** CreateVectFromObj, CreateObjFromVect *)

Definition CreateVectFromObj (obj : Object) : outcome (list Elem) :=
  UnpackSparseElements (data obj) (datalength obj).

(** [try { PackSparseElements(InpVect, pData, dataLen);
           return new Object(id, label, dataLen, pData); }
     catch (...) { delete [] pData; throw; }] *)
Definition CreateObjFromVect (id label : Z) (InpVect : list Elem) (h : heap) : outcome Object * heap :=
  let '(pk, h1) := PackSparseElements InpVect h in
  if threw pk then
    match delete_arr (pData pk) h1 with
    | Done h2 => (Fault Thrown, h2)
    | Fault e => (Fault e, h1)
    | OutOfFuel => (OutOfFuel, h1)
    end
  else (Done (mkObject id label (dataLen pk) (pData pk)), h1).

(** *** ComputeOverlap (two records) *)

(** Modelled from the spec: the loop condition of [IntersectSizeScalarFast]
    (both pointers have elements left). *)
Definition isect_cond (qty1 qty2 : N) (s : N * N * N) : bool :=
  (s.1.1 <? qty1) && (s.1.2 <? qty2).

(** Modelled from the spec: the loop body of [IntersectSizeScalarFast]
    (advance the pointer with the smaller current id, count a match). *)
Definition isect_body (pArr1 pArr2 : list N) (s : N * N * N) : outcome (N * N * N) :=
  let* x := at_ pArr1 s.1.1 in
  let* y := at_ pArr2 s.1.2 in
  if x <? y then Done (s.1.1 + 1, s.1.2, s.2)
  else if y <? x then Done (s.1.1, s.1.2 + 1, s.2)
  else Done (s.1.1 + 1, s.1.2 + 1, s.2 + 1).

(** Modelled from the spec: [IntersectSizeScalarFast] is defined in
    distcomp, which is missing.  Both inputs are assumed sorted ascending
    with unique ids; a linear merge scan that advances the pointer with
    the smaller current id and counts the matches.  State: the two
    positions and the count. *)
Definition IntersectSizeScalarFast (fuel : nat) (pArr1 : list N) (qty1 : N)
    (pArr2 : list N) (qty2 : N) : outcome N :=
  let* s := while_ fuel (isect_cond qty1 qty2) (isect_body pArr1 pArr2) (0, 0, 0) in
  Done s.2.

(** Lines 67-81; [ids1], [ids2] are the ids pushed back in list order. *)
Definition ComputeOverlap (fuel : nat) (obj1 obj2 : Object) : outcome N :=
  let* elems1 := UnpackSparseElements (data obj1) (datalength obj1) in
  let* elems2 := UnpackSparseElements (data obj2) (datalength obj2) in
  let ids1 := id_ <$> elems1 in
  let ids2 := id_ <$> elems2 in
  IntersectSizeScalarFast fuel ids1 (vsize ids1) ids2 (vsize ids2).

(** *** GetElemQty *)

Definition GetElemQty (obj : Object) : outcome N :=
  let* elems := UnpackSparseElements (data obj) (datalength obj) in
  Done (vsize elems).

(** *** ComputeOverlapInfo *)

(** [res.diff_sum_left_norm_ += v] *)
Definition add_diff_sum_left (r : OverlapInfo F) (v : V) : OverlapInfo F :=
  mkOverlapInfo (overlap_qty_ r) (overlap_dotprod_norm_ r)
    (overlap_sum_left_norm_ r) (overlap_sum_right_norm_ r)
    (Fadd (diff_sum_left_norm_ r) v) (diff_sum_right_norm_ r).

(** [res.diff_sum_right_norm_ = v] *)
Definition set_diff_sum_right (r : OverlapInfo F) (v : V) : OverlapInfo F :=
  mkOverlapInfo (overlap_qty_ r) (overlap_dotprod_norm_ r)
    (overlap_sum_left_norm_ r) (overlap_sum_right_norm_ r)
    (diff_sum_left_norm_ r) (Fset v).

(** The four statements of the branch [idA == idB]. *)
Definition add_overlap (r : OverlapInfo F) (va vb : V) : OverlapInfo F :=
  mkOverlapInfo (overlap_qty_ r + 1) (Fmadd (overlap_dotprod_norm_ r) va vb)
    (Fadd (overlap_sum_left_norm_ r) va) (Fset vb)
    (diff_sum_left_norm_ r) (diff_sum_right_norm_ r).

(** [OverlapInfo res;] *)
Definition res0 : OverlapInfo F :=
  mkOverlapInfo 0 Fzero Fzero Fzero Fzero Fzero.

(** Lines 91-96 and 98-103: [sqrt] of the sum of the squared values. *)
Definition norm_cond (elems : list Elem) (s : N * F) : bool :=
  fst s <? vsize elems.

Definition norm_body (elems : list Elem) (s : N * F) : outcome (N * F) :=
  let* e := at_ elems (fst s) in
  Done (u32 (fst s + 1), Fmadd (snd s) (val_ e) (val_ e)).

Definition l2norm (fuel : nat) (elems : list Elem) : outcome F :=
  let* s := while_ fuel (norm_cond elems) (norm_body elems) (0, Fzero) in
  Done (Fsqrt (snd s)).

(** Lines 107-124: the merge loop.  The second comparison is against
    [elemsA.size()], as in the source. *)
Definition merge_cond (elemsA elemsB : list Elem) (s : scan V F) : bool :=
  (curA s <? vsize elemsA) && (curB s <? vsize elemsA).

Definition merge_body (elemsA elemsB : list Elem) (s : scan V F) : outcome (scan V F) :=
  let* eA := at_ elemsA (curA s) in
  let* eB := at_ elemsB (curB s) in
  let idA := id_ eA in
  let idB := id_ eB in
  if idA <? idB then
    Done (mkScan (u32 (curA s + 1)) (curB s)
            (add_diff_sum_left (res s) (val_ eA))
            (wlog s ++ [(DiffLeft, val_ eA)]))
  else if idB <? idA then
    Done (mkScan (curA s) (u32 (curB s + 1))
            (set_diff_sum_right (res s) (val_ eB))
            (wlog s ++ [(DiffRight, val_ eB)]))
  else
    Done (mkScan (u32 (curA s + 1)) (u32 (curB s + 1))
            (add_overlap (res s) (val_ eA) (val_ eB))
            (wlog s ++ [(OverlapLeft, val_ eA); (OverlapRight, val_ eB)])).

(** Lines 126-129: the rest of the left list. *)
Definition drainA_cond (elemsA : list Elem) (s : scan V F) : bool :=
  curA s <? vsize elemsA.

Definition drainA_body (elemsA : list Elem) (s : scan V F) : outcome (scan V F) :=
  let* eA := at_ elemsA (curA s) in
  Done (mkScan (u32 (curA s + 1)) (curB s)
          (add_diff_sum_left (res s) (val_ eA))
          (wlog s ++ [(DiffLeft, val_ eA)])).

(** Lines 131-134: the rest of the right list. *)
Definition drainB_cond (elemsB : list Elem) (s : scan V F) : bool :=
  curB s <? vsize elemsB.

Definition drainB_body (elemsB : list Elem) (s : scan V F) : outcome (scan V F) :=
  let* eB := at_ elemsB (curB s) in
  Done (mkScan (curA s) (u32 (curB s + 1))
          (set_diff_sum_right (res s) (val_ eB))
          (wlog s ++ [(DiffRight, val_ eB)])).

Definition scan0 : scan V F := mkScan 0 0 res0 [].

Definition merge_loop (fuel : nat) (elemsA elemsB : list Elem) : outcome (scan V F) :=
  while_ fuel (merge_cond elemsA elemsB) (merge_body elemsA elemsB) scan0.

(** Lines 105-134: the three loops; the state they leave is the result
    before normalization. *)
Definition overlap_scan (fuel : nat) (elemsA elemsB : list Elem) : outcome (scan V F) :=
  let* s1 := merge_loop fuel elemsA elemsB in
  let* s2 := while_ fuel (drainA_cond elemsA) (drainA_body elemsA) s1 in
  while_ fuel (drainB_cond elemsB) (drainB_body elemsB) s2.

(** [1.0/norm]; a zero divisor is reported. *)
Definition recip (n : F) : outcome F :=
  if Fis0 n then Fault DivByZero else Done (Frecip n).

(** Lines 136-141. *)
Definition scale_left (inv : F) (r : OverlapInfo F) : OverlapInfo F :=
  mkOverlapInfo (overlap_qty_ r) (Fmul (overlap_dotprod_norm_ r) inv)
    (Fmul (overlap_sum_left_norm_ r) inv) (overlap_sum_right_norm_ r)
    (Fmul (diff_sum_left_norm_ r) inv) (diff_sum_right_norm_ r).

(** Lines 142-147. *)
Definition scale_right (inv : F) (r : OverlapInfo F) : OverlapInfo F :=
  mkOverlapInfo (overlap_qty_ r) (Fmul (overlap_dotprod_norm_ r) inv)
    (overlap_sum_left_norm_ r) (Fmul (overlap_sum_right_norm_ r) inv)
    (diff_sum_left_norm_ r) (Fmul (diff_sum_right_norm_ r) inv).

Definition normalize (norm_left norm_right : F) (r : OverlapInfo F) : outcome (OverlapInfo F) :=
  let* r1 := (if Fpos norm_left
              then let* inv := recip norm_left in Done (scale_left inv r)
              else Done r) in
  if Fpos norm_right then let* inv := recip norm_right in Done (scale_right inv r1)
  else Done r1.

(** The body of [ComputeOverlapInfo] after the two lists are decoded. *)
Definition overlap_of_elems (fuel : nat) (elemsA elemsB : list Elem) : outcome (OverlapInfo F) :=
  let* norm_left := l2norm fuel elemsA in
  let* norm_right := l2norm fuel elemsB in
  let* s := overlap_scan fuel elemsA elemsB in
  normalize norm_left norm_right (res s).

Definition ComputeOverlapInfo (fuel : nat) (objA objB : Object) : outcome (OverlapInfo F) :=
  let* elemsA := UnpackSparseElements (data objA) (datalength objA) in
  let* elemsB := UnpackSparseElements (data objB) (datalength objB) in
  overlap_of_elems fuel elemsA elemsB.

(** *** Vocabulary of the statements *)

(** The L2 norm of a list: [sqrt] of the running sum of squares. *)
Definition sumsq (n : F) (e : Elem) : F := Fmadd n (val_ e) (val_ e).

Definition l2 (elems : list Elem) : F := Fsqrt (foldl sumsq Fzero elems).

(** What holds of cursor and sum between two iterations of a norm loop. *)
Definition norm_inv (elems : list Elem) (s : N * F) : Prop :=
  s.1 <= vsize elems /\ s.2 = foldl sumsq Fzero (take (N.to_nat s.1) elems).

(** A statistic after the normalization step guarded by [n > 0]. *)
Definition scaled_by (n : F) (x : F) : F :=
  if Fpos n then Fmul x (Frecip n) else x.

(** The record after lines 136-147. *)
Definition normalized (nl nr : F) (r : OverlapInfo F) : OverlapInfo F :=
  mkOverlapInfo (overlap_qty_ r)
    (scaled_by nr (scaled_by nl (overlap_dotprod_norm_ r)))
    (scaled_by nl (overlap_sum_left_norm_ r))
    (scaled_by nr (overlap_sum_right_norm_ r))
    (scaled_by nl (diff_sum_left_norm_ r))
    (scaled_by nr (diff_sum_right_norm_ r)).

(** A field built by [+=] from zero, and a field built by [=]. *)
Definition accumulated (vs : list V) : F := foldl Fadd Fzero vs.

Definition last_assigned (vs : list V) : F := default Fzero (last (Fset <$> vs)).

(** The weights of the elements of [target] that hash to slot [i]. *)
Definition hits (nElem i : N) (target : list Elem) : list V :=
  val_ <$> filter (fun e => indexHash (id_ e) mod nElem = i) target.

(** The writes to the two left fields, and to the two right fields. *)
Definition is_left (w : side_field * V) : bool :=
  match w.1 with DiffLeft | OverlapLeft => true | _ => false end.

Definition left_writes (log : list (side_field * V)) : list V :=
  snd <$> filter (fun w => is_left w = true) log.

Definition right_writes (log : list (side_field * V)) : list V :=
  snd <$> filter (fun w => is_left w = false) log.

(** Sorted ascending by id with unique ids. *)
Fixpoint strictly_ascending (ids : list N) : bool :=
  match ids with
  | a :: (b :: _) as t => (a <? b) && strictly_ascending t
  | _ => true
  end.

Definition sorted_unique (v : list Elem) : Prop :=
  strictly_ascending (id_ <$> v) = true.

(** What holds of the scan state between two iterations of any of the
    three loops. *)
Definition scan_inv (elemsA elemsB : list Elem) (s : scan V F) : Prop :=
  curA s <= vsize elemsA /\ curB s <= vsize elemsB /\
  left_writes (wlog s) = val_ <$> take (N.to_nat (curA s)) elemsA /\
  right_writes (wlog s) = val_ <$> take (N.to_nat (curB s)) elemsB /\
  diff_sum_left_norm_ (res s) = accumulated (writes_to DiffLeft (wlog s)) /\
  overlap_sum_left_norm_ (res s) = accumulated (writes_to OverlapLeft (wlog s)) /\
  diff_sum_right_norm_ (res s) = last_assigned (writes_to DiffRight (wlog s)) /\
  overlap_sum_right_norm_ (res s) = last_assigned (writes_to OverlapRight (wlog s)) /\
  overlap_qty_ (res s) <= curA s.

End SpaceSparseVectorInter.

(** ** The payload layout *)

(** The object representation of a [dist_t]: [val_width] bytes, written
    by [val_bytes] and read back by [bytes_val]. *)
Class ValLayout (V : Type) := {
  val_width : nat;
  val_bytes : V -> list Byte.byte;
  bytes_val : list Byte.byte -> V
}.

(** The layout is the object representation of the type: every value takes
    [val_width] bytes and is read back from them unchanged. *)
Class ValLayoutOk (V : Type) {VL : ValLayout V} := {
  val_bytes_length : forall x : V, length (val_bytes x) = val_width;
  bytes_val_bytes : forall x : V, bytes_val (val_bytes x) = x
}.

(** A [dist_t] as the [w] bytes of its object representation (4 for
    [float], 8 for [double]): the bit pattern, sign bit included. *)
Record word (w : nat) : Type := mkWord {
  wbits : N;
  wbits_ok : (wbits <? 256 ^ N.of_nat w) = true
}.

Arguments mkWord {w} wbits wbits_ok.
Arguments wbits {w} _.
Arguments wbits_ok {w} _.

(** The low byte of [n]. *)
Definition byte_of_N (n : N) : Byte.byte :=
  default Byte.x00 (Byte.of_N (n mod 256)).

(** [k] bytes of [n], least significant first. *)
Fixpoint le_bytes (k : nat) (n : N) : list Byte.byte :=
  match k with
  | O => []
  | S k' => byte_of_N n :: le_bytes k' (n / 256)
  end.

(** The number a little-endian byte string stands for. *)
Fixpoint le_val (bs : list Byte.byte) : N :=
  match bs with
  | [] => 0
  | b :: bs' => Byte.to_N b + 256 * le_val bs'
  end.

Section Codec.

Context {V : Type} {VL : ValLayout V}.

Abbreviation Elem := (SparseVectElem V).

(** The id of an element is a [uint32_t]. *)
Definition uint32_id (e : Elem) : Prop := id_ e < 2 ^ 32.

(** Modelled from the spec: the bytes one element takes in the payload. *)
Definition elem_width : nat := 4 + val_width.

(** Modelled from the spec: one element, its id and then its value. *)
Definition encode_elem (e : Elem) : list Byte.byte :=
  le_bytes 4 (id_ e) ++ val_bytes (val_ e).

(** Modelled from the spec: the payload of [PackSparseElements], which is
    defined in a header that is missing.  The layout recovers the exact
    ordered list: the element count (a [size_t]), then each element's id
    (a [uint32_t]) and value (a [dist_t]), in order. *)
Definition encode (v : list Elem) : list Byte.byte :=
  le_bytes 8 (vsize v) ++ concat (encode_elem <$> v).

(** Modelled from the spec: [PackSparseElements], defined in a header that
    is missing.  It allocates a buffer sized exactly to the encoded
    content and hands it back through [pData] and [dataLen]. *)
Definition PackSparseElements_layout (InpVect : list Elem) (h : heap) : packed * heap :=
  let p := fresh (live h) in
  let content := encode InpVect in
  (mkPacked false (Some (mkBuffer p content)) (vsize content),
   mkHeap ({[p]} ∪ live h) (freed h)).

(** Modelled from the spec: [n] elements parsed back from the payload. *)
Fixpoint decode_elems (n : nat) (bs : list Byte.byte) : list Elem :=
  match n with
  | O => []
  | S n' =>
      mkElem (le_val (take 4 bs)) (bytes_val (take val_width (drop 4 bs)))
        :: decode_elems n' (drop elem_width bs)
  end.

(** Modelled from the spec: [UnpackSparseElements], defined in the same
    missing header.  It parses the layout back and throws on a truncated
    or structurally invalid payload (the declared element count exceeds
    the available bytes). *)
Definition UnpackSparseElements_layout (data : option buffer) (len : N) : outcome (list Elem) :=
  match data with
  | None => Fault Thrown
  | Some b =>
      if vsize (bytes b) <? len then Fault OutOfBounds
      else
        let bs := take (N.to_nat len) (bytes b) in
        if len <? 8 then Fault Thrown
        else
          let n := le_val (take 8 bs) in
          if len - 8 <? n * N.of_nat elem_width then Fault Thrown
          else Done (decode_elems (N.to_nat n) (drop 8 bs))
  end.

End Codec.

(** ** An instance to run the model: integer arithmetic

    Whole-number weights, exact sums; values are stored as eight bytes. *)

Lemma Zpos_nonzero (x : Z) : (0 <? x)%Z = true -> (x =? 0)%Z = false.
Proof. intros Hx. apply Z.eqb_neq. apply Z.ltb_lt in Hx. lia. Qed.

#[export] Instance ArithZ : Arith Z Z := {|
  Vzero := 0%Z;
  Vadd := Z.add;
  Fzero := 0%Z;
  Fadd := Z.add;
  Fmadd := fun f a b => (f + a * b)%Z;
  Fset := fun v => v;
  Fsqrt := Z.sqrt;
  Fpos := fun x => (0 <? x)%Z;
  Fis0 := fun x => (x =? 0)%Z;
  Frecip := fun x => (1 / x)%Z;
  Fmul := Z.mul;
  Fpos_nonzero := Zpos_nonzero
|}.

(** Eight bytes, two's complement. *)
#[export] Instance LayoutZ : ValLayout Z := {|
  val_width := 8;
  val_bytes := fun z => le_bytes 8 (Z.to_N (z mod 2 ^ 64));
  bytes_val := fun bs =>
    let n := Z.of_N (le_val bs) in
    if (n <? 2 ^ 63)%Z then n else (n - 2 ^ 64)%Z
|}.

(** ** An instance with fractions: integer weights, rational statistics

    Sums, products and reciprocals are exact; [sqrt] is exact on the
    squares of fractions, which is what the example vectors give. *)

Abbreviation Q := QArith_base.Q.

Definition Qsum (f : Q) (z : Z) : Q :=
  Qreduction.Qred (QArith_base.Qplus f (QArith_base.inject_Z z)).

Definition Qtimes (f g : Q) : Q := Qreduction.Qred (QArith_base.Qmult f g).

Definition Qrecip (f : Q) : Q := Qreduction.Qred (QArith_base.Qinv f).

Definition Qroot (f : Q) : Q :=
  let g := Qreduction.Qred f in
  QArith_base.Qmake (Z.sqrt (QArith_base.Qnum g)) (Pos.sqrt (QArith_base.Qden g)).

Lemma Qpos_nonzero (x : Q) :
  (0 <? QArith_base.Qnum x)%Z = true -> (QArith_base.Qnum x =? 0)%Z = false.
Proof. apply Zpos_nonzero. Qed.

Definition ArithZQ : Arith Z Q := {|
  Vzero := 0%Z;
  Vadd := Z.add;
  Fzero := QArith_base.inject_Z 0;
  Fadd := Qsum;
  Fmadd := fun f a b => Qsum f (a * b);
  Fset := QArith_base.inject_Z;
  Fsqrt := Qroot;
  Fpos := fun x => (0 <? QArith_base.Qnum x)%Z;
  Fis0 := fun x => (QArith_base.Qnum x =? 0)%Z;
  Frecip := Qrecip;
  Fmul := Qtimes;
  Fpos_nonzero := Qpos_nonzero
|}.

(** ** The object representation of a float as the stored value *)

Lemma word_range (w : nat) (n : N) :
  (n mod 256 ^ N.of_nat w <? 256 ^ N.of_nat w) = true.
Proof. apply N.ltb_lt, N.mod_lt, N.pow_nonzero. discriminate. Qed.

(** The word with the low [w] bytes of [n]. *)
Definition word_of (w : nat) (n : N) : word w :=
  mkWord (n mod 256 ^ N.of_nat w) (word_range w n).

#[export] Instance LayoutWord (w : nat) : ValLayout (word w) | 100 := {|
  val_width := w;
  val_bytes := fun x => le_bytes w (wbits x);
  bytes_val := fun bs => word_of w (le_val bs)
|}.

(** A list of (id, bit pattern) pairs as elements with [float] values. *)
Definition float_elems (v : list (N * N)) : list (SparseVectElem (word 4)) :=
  (fun p => mkElem p.1 (word_of 4 p.2)) <$> v.

(** Ids 1, 2, 7 with the floats 2.0, -1.0 and -0.0. *)
Definition vecF : list (N * N) := [(1, 1073741824); (2, 3212836864); (7, 2147483648)].

(** The free store with no block allocated. *)
Definition heap0 : heap := mkHeap ∅ [].

(** A list of (id, weight) pairs as a list of elements. *)
Definition elems_of (v : list (N * Z)) : list (SparseVectElem Z) :=
  (fun p => mkElem p.1 p.2) <$> v.

(** The record the encoder builds from a list of (id, value) pairs. *)
Definition record_of (v : list (N * Z)) : outcome Object :=
  (CreateObjFromVect PackSparseElements_layout 0%Z 0%Z
     (elems_of v) heap0).1.

(** An encoder that allocates its buffer and then throws. *)
Definition PackSparseElements_throwing {V : Type} (InpVect : list (SparseVectElem V))
    (h : heap) : packed * heap :=
  let p := fresh (live h) in
  (mkPacked true (Some (mkBuffer p [])) 0, mkHeap ({[p]} ∪ live h) (freed h)).

(** That record itself (packing these small lists returns). *)
Definition object_of (v : list (N * Z)) : Object :=
  match record_of v with
  | Done o => o
  | _ => mkObject 0%Z 0%Z 0 None
  end.

(** The two vectors of the specification's regression example. *)
Definition vecA : list (N * Z) := [(1, 2%Z); (2, 3%Z)].
Definition vecB : list (N * Z) := [(2, 3%Z); (3, 1%Z)].

(** A pair that takes every branch of the three loops: the merge loop
    passes left id 1, matches id 2, passes right ids 3 and 4, matches id 5
    and passes right id 6, where the right cursor reaches the left size;
    the left drain takes ids 50 and 70, the right drain id 70.  The sums
    of squares are 121 and 196.
    Then a left list of zero weights against a right list of norm 5. *)
Definition vecP : list (N * Z) :=
  [(1, 1%Z); (2, 2%Z); (5, 4%Z); (50, 6%Z); (70, 8%Z)].
Definition vecQ : list (N * Z) :=
  [(2, 1%Z); (3, 2%Z); (4, 3%Z); (5, 5%Z); (6, 6%Z); (70, 11%Z)].
Definition vecO : list (N * Z) := [(1, 0%Z); (2, 0%Z)].
Definition vecN : list (N * Z) := [(1, 3%Z); (3, 4%Z)].

Definition vecS : list (N * Z) := [(1, 1%Z); (2, 1%Z)].
Definition vecT : list (N * Z) := [(1, 4%Z)].
Definition vecU : list (N * Z) := [(5, 4%Z)].

(** ** Vocabulary of the further statements *)

Section MergeVocabulary.

Context {V F : Type} {AR : Arith V F}.

Abbreviation Elem := (SparseVectElem V).

(** The elements of [v] whose id occurs in [w], and those whose id does
    not, in the order of [v]. *)
Definition shared_with (w v : list Elem) : list Elem :=
  filter (fun e => id_ e ∈ (id_ <$> w)) v.

Definition absent_from (w v : list Elem) : list Elem :=
  filter (fun e => id_ e ∉ (id_ <$> w)) v.

(** The part of the right list the merge loop can reach: its cursor stays
    below [elemsA.size()]. *)
Definition reachable_right (elemsA elemsB : list Elem) : list Elem :=
  take (length elemsA) elemsB.

(** The log entries of a run of consecutive [+=] (or [=]) on one field. *)
Definition writes_of (f : side_field) (es : list Elem) : list (side_field * V) :=
  (fun e => (f, val_ e)) <$> es.

(** What the merge loop keeps, on lists sorted by id: the ids consumed on
    one side are below the ids left on the other side, and the log sorts
    the consumed elements by whether their id occurs on the other side. *)
Definition merge_inv (elemsA elemsB : list Elem) (s : scan V F) : Prop :=
  let a := N.to_nat (curA s) in
  let b := N.to_nat (curB s) in
  (b <= length elemsA)%nat /\
  (forall i j x y, (i < a)%nat -> (b <= j)%nat ->
     elemsA !! i = Some x -> elemsB !! j = Some y -> id_ x < id_ y) /\
  (forall i j x y, (j < b)%nat -> (a <= i)%nat ->
     elemsA !! i = Some x -> elemsB !! j = Some y -> id_ y < id_ x) /\
  writes_to OverlapLeft (wlog s) =
    val_ <$> shared_with (reachable_right elemsA elemsB) (take a elemsA) /\
  writes_to DiffLeft (wlog s) =
    val_ <$> absent_from (reachable_right elemsA elemsB) (take a elemsA) /\
  writes_to OverlapRight (wlog s) = val_ <$> shared_with elemsA (take b elemsB) /\
  writes_to DiffRight (wlog s) = val_ <$> absent_from elemsA (take b elemsB) /\
  overlap_qty_ (res s) = N.of_nat (length (writes_to OverlapLeft (wlog s))).

(** Every left element consumed so far has been compared with a right
    element whose id is at least its own. *)
Definition left_covered (elemsA elemsB : list Elem) (s : scan V F) : Prop :=
  forall i x, (i < N.to_nat (curA s))%nat -> elemsA !! i = Some x ->
    exists j y, elemsB !! j = Some y /\ id_ x <= id_ y.

(** How far the merge loop is from its exit: both cursors are compared
    with [elemsA.size()]. *)
Definition merge_measure (elemsA : list Elem) (s : scan V F) : nat :=
  (N.to_nat (vsize elemsA - curA s) + N.to_nat (vsize elemsA - curB s))%nat.

(** All that the merge loop keeps on lists sorted by id. *)
Definition merge_all_inv (elemsA elemsB : list Elem) (s : scan V F) : Prop :=
  scan_inv elemsA elemsB s /\ merge_inv elemsA elemsB s /\
  left_covered elemsA elemsB s.

(** The result under construction after [k] iterations of the merge loop
    on a list against itself. *)
Definition self_res (elems : list Elem) (k : nat) : OverlapInfo F :=
  mkOverlapInfo (N.of_nat k)
    (foldl sumsq Fzero (take k elems))
    (accumulated (val_ <$> take k elems))
    (last_assigned (val_ <$> take k elems))
    Fzero Fzero.

(** The slot an element is added to. *)
Definition slot_of (indexHash : N -> N) (nElem : N) (e : Elem) : N :=
  indexHash (id_ e) mod nElem.

End MergeVocabulary.

(** ** Reasoning about bounded loops *)

Section Loops.

Context {S : Type} (cond : S -> bool) (body : S -> outcome S).

Lemma while_unfold (fuel : nat) (s : S) :
  while_ fuel cond body s =
  if cond s then
    match fuel with
    | O => OutOfFuel
    | Datatypes.S fuel' => let* s' := body s in while_ fuel' cond body s'
    end
  else Done s.
Proof. destruct fuel; reflexivity. Qed.

Lemma while_exit (fuel : nat) (s : S) :
  cond s = false -> while_ fuel cond body s = Done s.
Proof. intros H. rewrite while_unfold, H. reflexivity. Qed.

(** More fuel does not change a result. *)
Lemma while_fuel_mono (fuel fuel' : nat) (s s' : S) :
  while_ fuel cond body s = Done s' -> (fuel <= fuel')%nat ->
  while_ fuel' cond body s = Done s'.
Proof.
  revert fuel' s. induction fuel as [|fuel IH]; intros fuel' s Hrun Hle.
  - rewrite while_unfold in Hrun. rewrite while_unfold.
    destruct (cond s); [discriminate | assumption].
  - destruct fuel' as [|fuel']; [lia |].
    rewrite while_unfold in Hrun. rewrite while_unfold.
    destruct (cond s); [| assumption].
    destruct (body s) as [s1| |]; simpl in *; try discriminate.
    apply IH; [assumption | lia].
Qed.

Lemma while_fault_mono (fuel fuel' : nat) (s : S) (e : fault) :
  while_ fuel cond body s = Fault e -> (fuel <= fuel')%nat ->
  while_ fuel' cond body s = Fault e.
Proof.
  revert fuel' s. induction fuel as [|fuel IH]; intros fuel' s Hrun Hle.
  - rewrite while_unfold in Hrun. destruct (cond s); discriminate.
  - destruct fuel' as [|fuel']; [lia |].
    rewrite while_unfold in Hrun. rewrite while_unfold.
    destruct (cond s); [| discriminate].
    destruct (body s) as [s1| |]; simpl in *; try discriminate; [| assumption].
    apply IH; [assumption | lia].
Qed.

(** Partial correctness: an invariant kept by the body holds when the loop
    returns, and the loop condition is then false. *)
Lemma while_invariant (I : S -> Prop) :
  (forall s s', I s -> cond s = true -> body s = Done s' -> I s') ->
  forall fuel s s', I s -> while_ fuel cond body s = Done s' ->
  I s' /\ cond s' = false.
Proof.
  intros Hstep. induction fuel as [|fuel IH]; intros s s' HI Hrun;
    rewrite while_unfold in Hrun; destruct (cond s) eqn:Hc; try discriminate;
    try (injection Hrun as <-; split; assumption).
  destruct (body s) as [s1| |] eqn:Hb; simpl in Hrun; try discriminate.
  eapply IH; [| eassumption]. eapply Hstep; eassumption.
Qed.

(** Safety: if the body cannot raise [e] from a state of the invariant,
    neither can the loop. *)
Lemma while_no_fault (I : S -> Prop) (e : fault) :
  (forall s s', I s -> cond s = true -> body s = Done s' -> I s') ->
  (forall s, I s -> cond s = true -> body s <> Fault e) ->
  forall fuel s, I s -> while_ fuel cond body s <> Fault e.
Proof.
  intros Hstep Hsafe. induction fuel as [|fuel IH]; intros s HI;
    rewrite while_unfold; destruct (cond s) eqn:Hc; try discriminate.
  destruct (body s) as [s1| |] eqn:Hb; simpl; try discriminate.
  - apply IH. eapply Hstep; eassumption.
  - intros [= ->]. eapply Hsafe; eassumption.
Qed.

(** Total correctness: with a measure that the body decreases, fuel above
    the measure is enough. *)
Lemma while_total (I : S -> Prop) (m : S -> nat) :
  (forall s, I s -> cond s = true ->
     exists s', body s = Done s' /\ I s' /\ (m s' < m s)%nat) ->
  forall fuel s, I s -> (m s < fuel)%nat ->
  exists s', while_ fuel cond body s = Done s' /\ I s' /\ cond s' = false.
Proof.
  intros Hstep. induction fuel as [|fuel IH]; intros s HI Hm; [lia |].
  rewrite while_unfold. destruct (cond s) eqn:Hc.
  - destruct (Hstep s HI Hc) as (s1 & Hb & HI1 & Hlt). rewrite Hb. simpl.
    apply IH; [assumption | lia].
  - exists s. auto.
Qed.

(** A loop whose condition holds on every state it can reach does not
    return. *)
Lemma while_stuck (I : S -> Prop) :
  (forall s, I s -> cond s = true) ->
  (forall s s', I s -> body s = Done s' -> I s') ->
  forall fuel s s', I s -> while_ fuel cond body s <> Done s'.
Proof.
  intros Hc Hstep. induction fuel as [|fuel IH]; intros s s' HI;
    rewrite while_unfold, (Hc s HI); [discriminate |].
  destruct (body s) as [s1| |] eqn:Hb; simpl; try discriminate.
  apply IH. eapply Hstep; eassumption.
Qed.

End Loops.

(** ** Vectors, cursors *)

Lemma u32_small (n : N) : n < 2 ^ 32 -> u32 n = n.
Proof. intros H. unfold u32. apply N.mod_small. assumption. Qed.

Lemma u32_lt (n : N) : u32 n < 2 ^ 32.
Proof. unfold u32. apply N.mod_lt. discriminate. Qed.

Lemma at_Done {T : Type} (v : list T) (i : N) (x : T) :
  at_ v i = Done x <-> v !! N.to_nat i = Some x.
Proof.
  unfold at_. destruct (v !! N.to_nat i); split; intros H; congruence.
Qed.

Lemma at_lt {T : Type} (v : list T) (i : N) (x : T) :
  at_ v i = Done x -> i < vsize v.
Proof.
  intros H%at_Done. apply lookup_lt_Some in H. unfold vsize. lia.
Qed.

Lemma at_in_bounds {T : Type} (v : list T) (i : N) :
  i < vsize v -> exists x, at_ v i = Done x.
Proof.
  intros H. unfold vsize in H.
  destruct (lookup_lt_is_Some_2 v (N.to_nat i)) as [x Hx]; [lia |].
  exists x. apply at_Done. assumption.
Qed.

Lemma at_not_thrown {T : Type} (v : list T) (i : N) (e : fault) :
  at_ v i = Fault e -> e = OutOfBounds /\ vsize v <= i.
Proof.
  unfold at_. destruct (v !! N.to_nat i) eqn:E; [discriminate |].
  intros [= <-]. split; [reflexivity |].
  apply lookup_ge_None in E. unfold vsize. lia.
Qed.

Lemma filter_none {T : Type} (P : T -> Prop) `{!forall x, Decision (P x)} (l : list T) :
  (forall x, x ∈ l -> ~ P x) -> filter P l = [].
Proof.
  induction l as [|x l IH]; intros Hno; [reflexivity |].
  rewrite filter_cons_False by (apply Hno; left).
  apply IH. intros y Hy. apply Hno. right. assumption.
Qed.

Lemma at_fueled {T : Type} (v : list T) (i : N) : at_ v i <> OutOfFuel.
Proof. unfold at_. destruct (v !! N.to_nat i); discriminate. Qed.

Lemma take_succ_at {T : Type} (v : list T) (i : N) (x : T) :
  at_ v i = Done x ->
  take (N.to_nat (i + 1)) v = take (N.to_nat i) v ++ [x].
Proof.
  intros H%at_Done. replace (N.to_nat (i + 1)) with (Datatypes.S (N.to_nat i)) by lia.
  apply take_S_r. assumption.
Qed.

(** ** The norm loops *)

Section Norm.

Context {V F : Type} {AR : Arith V F}.

Abbreviation Elem := (SparseVectElem V).

Lemma norm_body_inv (elems : list Elem) (s s' : N * F) :
  vsize elems < 2 ^ 32 ->
  norm_inv elems s -> norm_cond elems s = true -> norm_body elems s = Done s' ->
  norm_inv elems s' /\ s'.1 = s.1 + 1.
Proof.
  intros Hsz [Hle Hsum] Hc Hb. unfold norm_cond in Hc. apply N.ltb_lt in Hc.
  unfold norm_body in Hb. destruct (at_ elems s.1) as [e| |] eqn:He; try discriminate.
  simpl in Hb. injection Hb as <-. cbn [fst snd].
  rewrite u32_small by lia. split; [| reflexivity].
  split; cbn [fst snd]; [lia |].
  rewrite (take_succ_at _ _ _ He), foldl_snoc, <- Hsum. reflexivity.
Qed.

Lemma norm_inv_exit (elems : list Elem) (s : N * F) :
  norm_inv elems s -> norm_cond elems s = false ->
  s.2 = foldl sumsq Fzero elems.
Proof.
  intros [Hle Hsum] Hc. unfold norm_cond in Hc. apply N.ltb_ge in Hc.
  rewrite Hsum, take_ge; [reflexivity |]. unfold vsize in *. lia.
Qed.

(** Beyond 2^32 elements the 32-bit cursor never reaches the size. *)
Lemma norm_loop_stuck (elems : list Elem) (fuel : nat) (s s' : N * F) :
  2 ^ 32 <= vsize elems -> s.1 < 2 ^ 32 ->
  while_ fuel (norm_cond elems) (norm_body elems) s <> Done s'.
Proof.
  intros Hsz. revert s'. revert s.
  intros s s' Hs.
  apply (while_stuck _ _ (fun s => s.1 < 2 ^ 32)); [| | assumption].
  - intros t Ht. unfold norm_cond. apply N.ltb_lt. lia.
  - intros t t' Ht Hb. unfold norm_body in Hb.
    destruct (at_ elems t.1); try discriminate. simpl in Hb.
    injection Hb as <-. simpl. apply u32_lt.
Qed.

Lemma l2norm_Done (fuel : nat) (elems : list Elem) (n : F) :
  l2norm fuel elems = Done n -> vsize elems < 2 ^ 32 /\ n = l2 elems.
Proof.
  unfold l2norm. intros H.
  destruct (while_ fuel (norm_cond elems) (norm_body elems) (0, Fzero))
    as [s| |] eqn:Hrun; try discriminate.
  simpl in H. injection H as <-.
  destruct (N.lt_ge_cases (vsize elems) (2 ^ 32)) as [Hsz|Hsz].
  - split; [assumption |].
    apply (while_invariant _ _ (norm_inv elems)) in Hrun as [Hinv Hc].
    + unfold l2. f_equal. apply norm_inv_exit; assumption.
    + intros t t' Ht Hc Hb. eapply norm_body_inv; eassumption.
    + split; [apply N.le_0_l | reflexivity].
  - exfalso. eapply norm_loop_stuck; [exact Hsz | | exact Hrun]. simpl. lia.
Qed.

Lemma l2norm_total (fuel : nat) (elems : list Elem) :
  vsize elems < 2 ^ 32 -> (length elems < fuel)%nat ->
  l2norm fuel elems = Done (l2 elems).
Proof.
  intros Hsz Hfuel. unfold l2norm.
  destruct (while_total (norm_cond elems) (norm_body elems) (norm_inv elems)
              (fun s => N.to_nat (vsize elems - s.1))) with (fuel := fuel) (s := (0, Fzero))
    as (s & Hrun & Hinv & Hc).
  - intros s Hinv Hc.
    assert (Hlt : s.1 < vsize elems) by (apply N.ltb_lt; exact Hc).
    destruct (at_in_bounds elems s.1 Hlt) as [e He].
    exists (u32 (s.1 + 1), sumsq s.2 e).
    assert (Hb : norm_body elems s = Done (u32 (s.1 + 1), sumsq s.2 e)).
    { unfold norm_body. rewrite He. reflexivity. }
    destruct (norm_body_inv elems s _ Hsz Hinv Hc Hb) as [Hinv' Hcur].
    split; [exact Hb |]. split; [exact Hinv' |]. simpl in *. lia.
  - split; [apply N.le_0_l | reflexivity].
  - cbn [fst]. unfold vsize. lia.
  - rewrite Hrun. simpl. unfold l2.
    rewrite (norm_inv_exit elems s Hinv Hc). reflexivity.
Qed.

Lemma l2norm_no_fault (fuel : nat) (elems : list Elem) (e : fault) :
  l2norm fuel elems <> Fault e.
Proof.
  unfold l2norm.
  destruct (while_ fuel (norm_cond elems) (norm_body elems) (0, Fzero))
    as [s| |] eqn:Hrun; simpl; try discriminate.
  exfalso. revert Hrun.
  apply (while_no_fault _ _ (fun _ => True)); [auto | | exact I].
  intros s _ Hc Hb. unfold norm_cond in Hc. apply N.ltb_lt in Hc.
  destruct (at_in_bounds elems s.1 Hc) as [x Hx].
  unfold norm_body in Hb. rewrite Hx in Hb. discriminate.
Qed.

End Norm.

(** ** The write log *)

Section WriteLog.

Context {V F : Type} {AR : Arith V F}.

Lemma writes_to_snoc (f g : side_field) (v : V) (log : list (side_field * V)) :
  writes_to f (log ++ [(g, v)]) =
  writes_to f log ++ (if side_field_eqb g f then [v] else []).
Proof.
  unfold writes_to. rewrite filter_app, fmap_app. f_equal.
  destruct g, f; reflexivity.
Qed.

Lemma left_writes_snoc (g : side_field) (v : V) (log : list (side_field * V)) :
  left_writes (log ++ [(g, v)]) =
  left_writes log ++ (if is_left (g, v) then [v] else []).
Proof.
  unfold left_writes. rewrite filter_app, fmap_app. f_equal.
  destruct g; reflexivity.
Qed.

Lemma right_writes_snoc (g : side_field) (v : V) (log : list (side_field * V)) :
  right_writes (log ++ [(g, v)]) =
  right_writes log ++ (if is_left (g, v) then [] else [v]).
Proof.
  unfold right_writes. rewrite filter_app, fmap_app. f_equal.
  destruct g; reflexivity.
Qed.

Lemma accumulated_snoc (vs : list V) (v : V) :
  accumulated (vs ++ [v]) = Fadd (accumulated vs) v.
Proof. unfold accumulated. apply foldl_snoc. Qed.

Lemma last_assigned_snoc (vs : list V) (v : V) :
  last_assigned (vs ++ [v]) = Fset v.
Proof. unfold last_assigned. rewrite fmap_app. simpl. rewrite last_snoc. reflexivity. Qed.

End WriteLog.

(** ** The three loops of ComputeOverlapInfo *)

Section Scan.

Context {V F : Type} {AR : Arith V F}.

Abbreviation Elem := (SparseVectElem V).

Variables elemsA elemsB : list Elem.

Hypothesis sizeA : vsize elemsA < 2 ^ 32.
Hypothesis sizeB : vsize elemsB < 2 ^ 32.

Ltac log_simpl :=
  repeat (rewrite ?writes_to_snoc, ?left_writes_snoc, ?right_writes_snoc;
          cbn [side_field_eqb is_left fst snd]);
  rewrite ?app_nil_r, ?accumulated_snoc, ?last_assigned_snoc.

Lemma scan_inv_init : scan_inv elemsA elemsB scan0.
Proof.
  unfold scan_inv, scan0. cbn. repeat split; apply N.le_0_l.
Qed.

Lemma advance_left (s : scan V F) (eA : Elem) (f : side_field) (r : OverlapInfo F) :
  scan_inv elemsA elemsB s -> at_ elemsA (curA s) = Done eA ->
  is_left (f, val_ eA) = true ->
  diff_sum_left_norm_ r = accumulated (writes_to DiffLeft (wlog s ++ [(f, val_ eA)])) ->
  overlap_sum_left_norm_ r = accumulated (writes_to OverlapLeft (wlog s ++ [(f, val_ eA)])) ->
  diff_sum_right_norm_ r = diff_sum_right_norm_ (res s) ->
  overlap_sum_right_norm_ r = overlap_sum_right_norm_ (res s) ->
  overlap_qty_ r <= curA s + 1 ->
  scan_inv elemsA elemsB
    (mkScan (u32 (curA s + 1)) (curB s) r (wlog s ++ [(f, val_ eA)])).
Proof.
  intros (HA & HB & HL & HR & HdL & HoL & HdR & HoR & Hq) He Hf H1 H2 H3 H4 H5.
  pose proof (at_lt _ _ _ He) as Hlt.
  unfold scan_inv. cbn [curA curB res wlog].
  rewrite u32_small by lia.
  rewrite left_writes_snoc, right_writes_snoc, Hf, app_nil_r.
  rewrite (take_succ_at _ _ _ He), fmap_app, <- HL.
  repeat split; try assumption; try lia.
  - rewrite H3, HdR, writes_to_snoc. destruct f; try discriminate; cbn; by rewrite app_nil_r.
  - rewrite H4, HoR, writes_to_snoc. destruct f; try discriminate; cbn; by rewrite app_nil_r.
Qed.

Lemma advance_right (s : scan V F) (eB : Elem) (f : side_field) (r : OverlapInfo F) :
  scan_inv elemsA elemsB s -> at_ elemsB (curB s) = Done eB ->
  is_left (f, val_ eB) = false ->
  diff_sum_right_norm_ r = last_assigned (writes_to DiffRight (wlog s ++ [(f, val_ eB)])) ->
  overlap_sum_right_norm_ r = last_assigned (writes_to OverlapRight (wlog s ++ [(f, val_ eB)])) ->
  diff_sum_left_norm_ r = diff_sum_left_norm_ (res s) ->
  overlap_sum_left_norm_ r = overlap_sum_left_norm_ (res s) ->
  overlap_qty_ r = overlap_qty_ (res s) ->
  scan_inv elemsA elemsB
    (mkScan (curA s) (u32 (curB s + 1)) r (wlog s ++ [(f, val_ eB)])).
Proof.
  intros (HA & HB & HL & HR & HdL & HoL & HdR & HoR & Hq) He Hf H1 H2 H3 H4 H5.
  pose proof (at_lt _ _ _ He) as Hlt.
  unfold scan_inv. cbn [curA curB res wlog].
  rewrite u32_small by lia.
  rewrite left_writes_snoc, right_writes_snoc, Hf, app_nil_r.
  rewrite (take_succ_at _ _ _ He), fmap_app, <- HR.
  repeat split; try assumption; try lia.
  - rewrite H3, HdL, writes_to_snoc. destruct f; try discriminate; cbn; by rewrite app_nil_r.
  - rewrite H4, HoL, writes_to_snoc. destruct f; try discriminate; cbn; by rewrite app_nil_r.
Qed.

Lemma drainA_body_inv (s s' : scan V F) :
  scan_inv elemsA elemsB s -> drainA_body elemsA s = Done s' ->
  scan_inv elemsA elemsB s' /\ curA s' = curA s + 1 /\ curB s' = curB s.
Proof.
  intros Hinv Hb. unfold drainA_body in Hb.
  destruct (at_ elemsA (curA s)) as [eA| |] eqn:HeA; try discriminate.
  simpl in Hb. injection Hb as <-.
  pose proof (at_lt _ _ _ HeA) as Hlt.
  split; [| cbn; rewrite u32_small by lia; auto].
  pose proof Hinv as (HA & HB & HL & HR & HdL & HoL & HdR & HoR & Hq).
  apply advance_left; try assumption; try reflexivity; cbn.
  - log_simpl. rewrite HdL. reflexivity.
  - log_simpl. assumption.
  - lia.
Qed.

Lemma drainB_body_inv (s s' : scan V F) :
  scan_inv elemsA elemsB s -> drainB_body elemsB s = Done s' ->
  scan_inv elemsA elemsB s' /\ curA s' = curA s /\ curB s' = curB s + 1.
Proof.
  intros Hinv Hb. unfold drainB_body in Hb.
  destruct (at_ elemsB (curB s)) as [eB| |] eqn:HeB; try discriminate.
  simpl in Hb. injection Hb as <-.
  pose proof (at_lt _ _ _ HeB) as Hlt.
  split; [| cbn; rewrite u32_small by lia; auto].
  pose proof Hinv as (HA & HB & HL & HR & HdL & HoL & HdR & HoR & Hq).
  apply advance_right; try assumption; try reflexivity; cbn.
  - log_simpl. reflexivity.
  - log_simpl. assumption.
Qed.

Lemma merge_body_inv (s s' : scan V F) :
  scan_inv elemsA elemsB s -> merge_body elemsA elemsB s = Done s' ->
  scan_inv elemsA elemsB s' /\
  (curA s' = curA s + 1 /\ curB s' = curB s \/
   curA s' = curA s /\ curB s' = curB s + 1 \/
   curA s' = curA s + 1 /\ curB s' = curB s + 1).
Proof.
  intros Hinv Hb. unfold merge_body in Hb.
  destruct (at_ elemsA (curA s)) as [eA| |] eqn:HeA; try discriminate.
  destruct (at_ elemsB (curB s)) as [eB| |] eqn:HeB; try discriminate.
  pose proof (at_lt _ _ _ HeA) as HltA. pose proof (at_lt _ _ _ HeB) as HltB.
  pose proof Hinv as (HA & HB & HL & HR & HdL & HoL & HdR & HoR & Hq).
  cbn [obind] in Hb.
  destruct (id_ eA <? id_ eB); [| destruct (id_ eB <? id_ eA)]; injection Hb as <-.
  - split; [| left; cbn; rewrite u32_small by lia; auto].
    apply advance_left; try assumption; try reflexivity; cbn.
    + log_simpl. rewrite HdL. reflexivity.
    + log_simpl. assumption.
    + lia.
  - split; [| right; left; cbn; rewrite u32_small by lia; auto].
    apply advance_right; try assumption; try reflexivity; cbn.
    + log_simpl. reflexivity.
    + log_simpl. assumption.
  - split; [| right; right; cbn; rewrite !u32_small by lia; auto].
    set (r1 := mkOverlapInfo (overlap_qty_ (res s) + 1)
                 (Fmadd (overlap_dotprod_norm_ (res s)) (val_ eA) (val_ eB))
                 (Fadd (overlap_sum_left_norm_ (res s)) (val_ eA))
                 (overlap_sum_right_norm_ (res s))
                 (diff_sum_left_norm_ (res s)) (diff_sum_right_norm_ (res s))).
    assert (H1 : scan_inv elemsA elemsB
                   (mkScan (u32 (curA s + 1)) (curB s) r1
                      (wlog s ++ [(OverlapLeft, val_ eA)]))).
    { apply advance_left; try assumption; try reflexivity; cbn.
      - log_simpl. assumption.
      - log_simpl. rewrite HoL. reflexivity.
      - lia. }
    replace (wlog s ++ [(OverlapLeft, val_ eA); (OverlapRight, val_ eB)])
      with ((wlog s ++ [(OverlapLeft, val_ eA)]) ++ [(OverlapRight, val_ eB)])
      by (rewrite <- app_assoc; reflexivity).
    apply (advance_right (mkScan (u32 (curA s + 1)) (curB s) r1
                            (wlog s ++ [(OverlapLeft, val_ eA)])));
      try assumption; try reflexivity;
      cbn [wlog res overlap_sum_right_norm_ diff_sum_right_norm_ r1].
    + log_simpl. assumption.
    + log_simpl. reflexivity.
Qed.

(** The state the three loops leave: both lists consumed, every left value
    written once to a left field and every right value once to a right
    field. *)
Lemma overlap_scan_Done (fuel : nat) (s : scan V F) :
  overlap_scan fuel elemsA elemsB = Done s ->
  scan_inv elemsA elemsB s /\ curA s = vsize elemsA /\ curB s = vsize elemsB.
Proof.
  unfold overlap_scan, merge_loop. intros H.
  destruct (while_ fuel (merge_cond elemsA elemsB) (merge_body elemsA elemsB) scan0)
    as [s1| |] eqn:H1; try discriminate.
  cbn [obind] in H.
  destruct (while_ fuel (drainA_cond elemsA) (drainA_body elemsA) s1)
    as [s2| |] eqn:H2; try discriminate.
  cbn [obind] in H.
  apply (while_invariant _ _ (scan_inv elemsA elemsB)) in H1 as [I1 _];
    [| intros t t' Ht _ Hb; eapply merge_body_inv; eassumption | apply scan_inv_init].
  apply (while_invariant _ _ (scan_inv elemsA elemsB)) in H2 as [I2 C2];
    [| intros t t' Ht _ Hb; eapply drainA_body_inv; eassumption | assumption].
  apply (while_invariant _ _
           (fun t => scan_inv elemsA elemsB t /\ curA t = curA s2)) in H as [[I3 E3] C3].
  - split; [assumption |].
    unfold drainA_cond in C2. unfold drainB_cond in C3.
    apply N.ltb_ge in C2, C3.
    destruct I2 as (HA2 & _). destruct I3 as (_ & HB3 & _). lia.
  - intros t t' [Ht Et] _ Hb.
    destruct (drainB_body_inv t t' Ht Hb) as (Ht' & EA & _).
    split; [assumption | congruence].
  - split; [assumption | reflexivity].
Qed.

End Scan.

(** ** Faults and termination of ComputeOverlapInfo *)

Section Safety.

Context {V F : Type} {AR : Arith V F}.

Abbreviation Elem := (SparseVectElem V).

Variables elemsA elemsB : list Elem.

Lemma merge_body_fault (s : scan V F) (e : fault) :
  merge_cond elemsA elemsB s = true -> merge_body elemsA elemsB s = Fault e ->
  e = OutOfBounds /\ vsize elemsB <= curB s.
Proof.
  unfold merge_cond, merge_body. intros Hc Hb.
  apply andb_true_iff in Hc as [HcA _]. apply N.ltb_lt in HcA.
  destruct (at_in_bounds elemsA (curA s) HcA) as [eA HeA]. rewrite HeA in Hb.
  cbn [obind] in Hb.
  destruct (at_ elemsB (curB s)) as [eB| |] eqn:HeB; try discriminate.
  - cbn [obind] in Hb.
    destruct (id_ eA <? id_ eB); [| destruct (id_ eB <? id_ eA)]; discriminate.
  - cbn [obind] in Hb. injection Hb as <-. eapply at_not_thrown. eassumption.
Qed.

Lemma drainA_body_safe (s : scan V F) :
  drainA_cond elemsA s = true -> exists s', drainA_body elemsA s = Done s'.
Proof.
  unfold drainA_cond, drainA_body. intros Hc%N.ltb_lt.
  destruct (at_in_bounds elemsA (curA s) Hc) as [eA ->]. eexists. reflexivity.
Qed.

Lemma drainB_body_safe (s : scan V F) :
  drainB_cond elemsB s = true -> exists s', drainB_body elemsB s = Done s'.
Proof.
  unfold drainB_cond, drainB_body. intros Hc%N.ltb_lt.
  destruct (at_in_bounds elemsB (curB s) Hc) as [eB ->]. eexists. reflexivity.
Qed.

(** The only fault of the three loops is a read outside a vector. *)
Lemma overlap_scan_fault (fuel : nat) (e : fault) :
  overlap_scan fuel elemsA elemsB = Fault e -> e = OutOfBounds.
Proof.
  destruct e; try reflexivity; intros H; exfalso; revert H;
    unfold overlap_scan, merge_loop;
    (destruct (while_ fuel (merge_cond elemsA elemsB) (merge_body elemsA elemsB) scan0)
       as [s1|e1|] eqn:H1; cbn [obind];
     [| intros [= ->]; revert H1;
        apply (while_no_fault _ _ (fun _ => True)); [auto | | exact I];
        intros s _ Hc Hb; apply (merge_body_fault s _ Hc) in Hb as [? _]; discriminate
      | discriminate]);
    (destruct (while_ fuel (drainA_cond elemsA) (drainA_body elemsA) s1)
       as [s2|e2|] eqn:H2; cbn [obind];
     [| intros [= ->]; revert H2;
        apply (while_no_fault _ _ (fun _ => True)); [auto | | exact I];
        intros s _ Hc Hb; destruct (drainA_body_safe s Hc) as [s' Hs']; congruence
      | discriminate]);
    (apply (while_no_fault _ _ (fun _ => True)); [auto | | exact I];
     intros s _ Hc Hb; destruct (drainB_body_safe s Hc) as [s' Hs']; congruence).
Qed.

(** With a right list at least as long as the left one, no read of the
    merge loop leaves its vector. *)
Lemma merge_loop_in_bounds (fuel : nat) (e : fault) :
  vsize elemsA <= vsize elemsB -> merge_loop fuel elemsA elemsB <> Fault e.
Proof.
  intros Hle. unfold merge_loop.
  apply (while_no_fault _ _ (fun _ => True)); [auto | | exact I].
  intros s _ Hc Hb. pose proof Hc as Hc'.
  apply (merge_body_fault s _ Hc) in Hb as [_ Hge].
  unfold merge_cond in Hc'. apply andb_true_iff in Hc' as [_ HcB].
  apply N.ltb_lt in HcB. lia.
Qed.

Lemma normalize_Done (nl nr : F) (r : OverlapInfo F) :
  normalize nl nr r = Done (normalized nl nr r).
Proof.
  unfold normalize, normalized, scaled_by, recip.
  destruct (Fpos nl) eqn:Hl; destruct (Fpos nr) eqn:Hr;
    rewrite ?(Fpos_nonzero _ Hl), ?(Fpos_nonzero _ Hr); cbn [obind];
    rewrite ?(Fpos_nonzero _ Hr); destruct r; reflexivity.
Qed.

Lemma overlap_of_elems_fault (fuel : nat) (e : fault) :
  overlap_of_elems fuel elemsA elemsB = Fault e -> e = OutOfBounds.
Proof.
  unfold overlap_of_elems. intros H.
  destruct (l2norm fuel elemsA) as [nl|e1|] eqn:HA; cbn [obind] in H;
    [| exfalso; eapply l2norm_no_fault; eassumption | discriminate].
  destruct (l2norm fuel elemsB) as [nr|e2|] eqn:HB; cbn [obind] in H;
    [| exfalso; eapply l2norm_no_fault; eassumption | discriminate].
  destruct (overlap_scan fuel elemsA elemsB) as [s|e3|] eqn:HS; cbn [obind] in H;
    [| injection H as <-; eapply overlap_scan_fault; eassumption | discriminate].
  rewrite normalize_Done in H. discriminate.
Qed.

(** What [ComputeOverlapInfo] returns, in terms of the state of the scan. *)
Lemma overlap_of_elems_Done (fuel : nat) (r : OverlapInfo F) :
  overlap_of_elems fuel elemsA elemsB = Done r ->
  vsize elemsA < 2 ^ 32 /\ vsize elemsB < 2 ^ 32 /\
  exists s, overlap_scan fuel elemsA elemsB = Done s /\
            r = normalized (l2 elemsA) (l2 elemsB) (res s).
Proof.
  unfold overlap_of_elems. intros H.
  destruct (l2norm fuel elemsA) as [nl| |] eqn:HA; try discriminate.
  destruct (l2norm fuel elemsB) as [nr| |] eqn:HB; try discriminate.
  cbn [obind] in H.
  destruct (overlap_scan fuel elemsA elemsB) as [s| |] eqn:HS; try discriminate.
  cbn [obind] in H. rewrite normalize_Done in H. injection H as <-.
  apply l2norm_Done in HA as [HszA ->]. apply l2norm_Done in HB as [HszB ->].
  split; [assumption |]. split; [assumption |]. exists s. split; reflexivity.
Qed.

(** Enough fuel gives a result when the right list is at least as long
    as the left one. *)
Lemma overlap_scan_total (fuel : nat) :
  vsize elemsB < 2 ^ 32 -> vsize elemsA <= vsize elemsB ->
  (2 * length elemsA + length elemsB < fuel)%nat ->
  exists s, overlap_scan fuel elemsA elemsB = Done s.
Proof.
  intros HszB Hle Hfuel.
  assert (HszA : vsize elemsA < 2 ^ 32) by lia.
  unfold overlap_scan, merge_loop.
  assert (Hmerge : forall s, scan_inv elemsA elemsB s ->
            merge_cond elemsA elemsB s = true ->
            exists s', merge_body elemsA elemsB s = Done s' /\
                       scan_inv elemsA elemsB s' /\
                       (N.to_nat (vsize elemsA - curA s') +
                        N.to_nat (vsize elemsA - curB s') <
                        N.to_nat (vsize elemsA - curA s) +
                        N.to_nat (vsize elemsA - curB s))%nat).
  { intros s Hinv Hc. pose proof Hc as Hc'.
    unfold merge_cond in Hc'. apply andb_true_iff in Hc' as [HcA HcB].
    apply N.ltb_lt in HcA, HcB.
    destruct (merge_body elemsA elemsB s) as [s'|e|] eqn:Hb.
    - exists s'. split; [reflexivity |].
      destruct (merge_body_inv elemsA elemsB HszA HszB s s' Hinv Hb) as [Hinv' Hcur].
      split; [assumption | lia].
    - apply (merge_body_fault s _ Hc) in Hb as [_ Hge]. lia.
    - unfold merge_body in Hb.
      destruct (at_ elemsA (curA s)) as [eA| |] eqn:HeA; try discriminate;
        [| exfalso; eapply at_fueled; eassumption].
      destruct (at_ elemsB (curB s)) as [eB| |] eqn:HeB; try discriminate;
        [| exfalso; eapply at_fueled; eassumption].
      cbn [obind] in Hb.
      destruct (id_ eA <? id_ eB); [| destruct (id_ eB <? id_ eA)]; discriminate. }
  destruct (while_total _ _ _ _ Hmerge fuel scan0) as (s1 & -> & I1 & _);
    [apply scan_inv_init | cbn [scan0 curA curB]; unfold vsize; lia |].
  cbn [obind].
  assert (HdrainA : forall s, scan_inv elemsA elemsB s ->
            drainA_cond elemsA s = true ->
            exists s', drainA_body elemsA s = Done s' /\
                       scan_inv elemsA elemsB s' /\
                       (N.to_nat (vsize elemsA - curA s') <
                        N.to_nat (vsize elemsA - curA s))%nat).
  { intros s Hinv Hc. destruct (drainA_body_safe s Hc) as [s' Hb].
    exists s'. split; [assumption |].
    destruct (drainA_body_inv elemsA elemsB HszA HszB s s' Hinv Hb) as (Hinv' & EA & EB).
    split; [assumption |]. unfold drainA_cond in Hc. apply N.ltb_lt in Hc. lia. }
  destruct (while_total _ _ _ _ HdrainA fuel s1) as (s2 & -> & I2 & _);
    [assumption | unfold vsize; lia |].
  cbn [obind].
  assert (HdrainB : forall s, scan_inv elemsA elemsB s ->
            drainB_cond elemsB s = true ->
            exists s', drainB_body elemsB s = Done s' /\
                       scan_inv elemsA elemsB s' /\
                       (N.to_nat (vsize elemsB - curB s') <
                        N.to_nat (vsize elemsB - curB s))%nat).
  { intros s Hinv Hc. destruct (drainB_body_safe s Hc) as [s' Hb].
    exists s'. split; [assumption |].
    destruct (drainB_body_inv elemsA elemsB HszA HszB s s' Hinv Hb) as (Hinv' & EA & EB).
    split; [assumption |]. unfold drainB_cond in Hc. apply N.ltb_lt in Hc. lia. }
  destruct (while_total _ _ _ _ HdrainB fuel s2) as (s3 & -> & I3 & _);
    [assumption | unfold vsize; lia |].
  exists s3. reflexivity.
Qed.

Lemma overlap_of_elems_total (fuel : nat) :
  vsize elemsB < 2 ^ 32 -> vsize elemsA <= vsize elemsB ->
  (2 * length elemsA + length elemsB < fuel)%nat ->
  exists r, overlap_of_elems fuel elemsA elemsB = Done r.
Proof.
  intros HszB Hle Hfuel. unfold overlap_of_elems.
  rewrite !l2norm_total by (try lia; unfold vsize in *; lia). cbn [obind].
  destruct (overlap_scan_total fuel HszB Hle Hfuel) as [s ->]. cbn [obind].
  rewrite normalize_Done. eexists. reflexivity.
Qed.

End Safety.

(** ** ComputeOverlapInfo: the statements *)

Section OverlapInfoFacts.

Context {V F : Type} {AR : Arith V F}.

Abbreviation Elem := (SparseVectElem V).

Variable UnpackSparseElements : option buffer -> N -> outcome (list Elem).

Lemma overlap_scan_fuel_mono (elemsA elemsB : list Elem) (fuel fuel' : nat) (s : scan V F) :
  overlap_scan fuel elemsA elemsB = Done s -> (fuel <= fuel')%nat ->
  overlap_scan fuel' elemsA elemsB = Done s.
Proof.
  unfold overlap_scan, merge_loop. intros H Hle.
  destruct (while_ fuel (merge_cond elemsA elemsB) (merge_body elemsA elemsB) scan0)
    as [s1| |] eqn:H1; try discriminate.
  cbn [obind] in H.
  destruct (while_ fuel (drainA_cond elemsA) (drainA_body elemsA) s1)
    as [s2| |] eqn:H2; try discriminate.
  cbn [obind] in H.
  rewrite (while_fuel_mono _ _ _ _ _ _ H1 Hle). cbn [obind].
  rewrite (while_fuel_mono _ _ _ _ _ _ H2 Hle). cbn [obind].
  apply (while_fuel_mono _ _ _ _ _ _ H Hle).
Qed.

Lemma ComputeOverlapInfo_decoded (fuel : nat) (objA objB : Object)
    (elemsA elemsB : list Elem) :
  UnpackSparseElements (data objA) (datalength objA) = Done elemsA ->
  UnpackSparseElements (data objB) (datalength objB) = Done elemsB ->
  ComputeOverlapInfo UnpackSparseElements fuel objA objB =
  overlap_of_elems fuel elemsA elemsB.
Proof. intros HA HB. unfold ComputeOverlapInfo. rewrite HA, HB. reflexivity. Qed.

(** The function returns once the fuel exceeds the work of its loops,
    when the right list is at least as long as the left one. *)
Lemma ComputeOverlapInfo_returns (fuel : nat) (objA objB : Object)
    (elemsA elemsB : list Elem) :
  UnpackSparseElements (data objA) (datalength objA) = Done elemsA ->
  UnpackSparseElements (data objB) (datalength objB) = Done elemsB ->
  vsize elemsB < 2 ^ 32 -> vsize elemsA <= vsize elemsB ->
  (2 * length elemsA + length elemsB < fuel)%nat ->
  exists r, ComputeOverlapInfo UnpackSparseElements fuel objA objB = Done r.
Proof.
  intros HA HB Hsz Hle Hfuel. rewrite (ComputeOverlapInfo_decoded _ _ _ _ _ HA HB).
  apply overlap_of_elems_total; assumption.
Qed.

(** C1, evaluated on ids {10,20} against ids {1,2,10}: the merge loop
    stops with the left cursor at 0 of 2 and the right cursor at 2 of 3,
    neither list exhausted, and the common id 10 is never compared: the
    returned count is 0. *)
Theorem merge_loop_stops_before_either_list_ends
    (a1 a2 b1 b2 b3 : V) (fuel : nat) :
  let elemsA := [mkElem 10 a1; mkElem 20 a2] in
  let elemsB := [mkElem 1 b1; mkElem 2 b2; mkElem 10 b3] in
  (exists s, merge_loop (2 + fuel) elemsA elemsB = Done s /\
             curA s = 0 /\ curB s = 2 /\
             curA s < vsize elemsA /\ curB s < vsize elemsB) /\
  (exists r, overlap_of_elems (4 + fuel) elemsA elemsB = Done r /\
             overlap_qty_ r = 0).
Proof.
  intros elemsA elemsB. split.
  - eexists. split.
    + unfold merge_loop. apply while_fuel_mono with (fuel := 2%nat); [reflexivity | lia].
    + cbn. repeat split; reflexivity.
  - subst elemsA elemsB. unfold overlap_of_elems.
    rewrite !l2norm_total by (first [reflexivity | cbn [length]; lia]). cbn [obind].
    erewrite (overlap_scan_fuel_mono _ _ 3 (4 + fuel)); [| reflexivity | lia].
    cbn [obind]. rewrite normalize_Done. eexists. split; reflexivity.
Qed.

(** C2: in every result of ComputeOverlapInfo the two left statistics are
    the running sums ([+=] from zero) of the left values written to them,
    the two right statistics are the last right value assigned to them
    (zero if none was), each then scaled by the guarded normalization; the
    writes are those of the loops: every left value goes once to a left
    field and every right value once to a right field, in list order.
    And there is such a result: the call returns whenever the right list
    is at least as long as the left one and the loops are given the fuel
    for their iterations. *)
Theorem left_fields_accumulate_right_fields_keep_last
    (fuel : nat) (objA objB : Object) (elemsA elemsB : list Elem) :
  UnpackSparseElements (data objA) (datalength objA) = Done elemsA ->
  UnpackSparseElements (data objB) (datalength objB) = Done elemsB ->
  (forall r : OverlapInfo F,
     ComputeOverlapInfo UnpackSparseElements fuel objA objB = Done r ->
     exists s, overlap_scan fuel elemsA elemsB = Done s /\
       left_writes (wlog s) = (val_ <$> elemsA) /\
       right_writes (wlog s) = (val_ <$> elemsB) /\
       diff_sum_left_norm_ r =
         scaled_by (l2 elemsA) (accumulated (writes_to DiffLeft (wlog s))) /\
       overlap_sum_left_norm_ r =
         scaled_by (l2 elemsA) (accumulated (writes_to OverlapLeft (wlog s))) /\
       diff_sum_right_norm_ r =
         scaled_by (l2 elemsB) (last_assigned (writes_to DiffRight (wlog s))) /\
       overlap_sum_right_norm_ r =
         scaled_by (l2 elemsB) (last_assigned (writes_to OverlapRight (wlog s)))) /\
  (vsize elemsB < 2 ^ 32 -> vsize elemsA <= vsize elemsB ->
   (2 * length elemsA + length elemsB < fuel)%nat ->
   exists r, ComputeOverlapInfo UnpackSparseElements fuel objA objB = Done r).
Proof.
  intros HA HB. split; [| apply ComputeOverlapInfo_returns; assumption].
  intros r H. rewrite (ComputeOverlapInfo_decoded _ _ _ _ _ HA HB) in H.
  apply overlap_of_elems_Done in H as (HszA & HszB & s & Hs & ->).
  exists s. split; [assumption |].
  destruct (overlap_scan_Done elemsA elemsB HszA HszB fuel s Hs)
    as ((_ & _ & HL & HR & HdL & HoL & HdR & HoR & _) & EA & EB).
  rewrite EA in HL. rewrite EB in HR. unfold vsize in HL, HR.
  rewrite Nat2N.id, firstn_all in HL, HR.
  cbn [normalized diff_sum_left_norm_ overlap_sum_left_norm_
       diff_sum_right_norm_ overlap_sum_right_norm_].
  rewrite HdL, HoL, HdR, HoR. repeat split; assumption.
Qed.

(** C3: some valid pair with a shorter right list makes the merge loop
    read the right list at its length (the loop condition, which compares
    the right cursor with the left size, still holds there); when the
    right list is at least as long as the left one no read of the loop,
    and none of the whole function, leaves its vector. *)
Theorem merge_loop_right_read_bounds :
  (exists (elemsA elemsB : list Elem) (s1 : scan V F),
     sorted_unique elemsA /\ sorted_unique elemsB /\
     vsize elemsB < vsize elemsA /\
     merge_body elemsA elemsB scan0 = Done s1 /\
     merge_cond elemsA elemsB s1 = true /\
     vsize elemsB <= curB s1 /\
     at_ elemsB (curB s1) = Fault OutOfBounds /\
     forall fuel, merge_loop (2 + fuel) elemsA elemsB = Fault OutOfBounds) /\
  (forall (elemsA elemsB : list Elem) (fuel : nat),
     vsize elemsA <= vsize elemsB ->
     merge_loop fuel elemsA elemsB <> Fault OutOfBounds /\
     overlap_of_elems fuel elemsA elemsB <> Fault OutOfBounds).
Proof.
  split.
  - exists [mkElem 1 Vzero; mkElem 2 Vzero], [mkElem 1 Vzero]. eexists.
    split; [reflexivity |]. split; [reflexivity |]. split; [reflexivity |].
    split; [reflexivity |]. split; [reflexivity |]. split; [by vm_compute |].
    split; [reflexivity |].
    intros fuel. unfold merge_loop.
    apply while_fault_mono with (fuel := 2%nat); [reflexivity | lia].
  - intros elemsA elemsB fuel Hle. split; [apply merge_loop_in_bounds; assumption |].
    intros H. unfold overlap_of_elems in H.
    destruct (l2norm fuel elemsA) as [nl|e1|] eqn:HA; cbn [obind] in H;
      [| eapply l2norm_no_fault; eassumption | discriminate].
    destruct (l2norm fuel elemsB) as [nr|e2|] eqn:HB; cbn [obind] in H;
      [| eapply l2norm_no_fault; eassumption | discriminate].
    destruct (overlap_scan fuel elemsA elemsB) as [s|e3|] eqn:HS; cbn [obind] in H;
      [rewrite normalize_Done in H; discriminate | | discriminate].
    injection H as ->. revert HS. unfold overlap_scan.
    destruct (merge_loop fuel elemsA elemsB) as [s1|e1|] eqn:H1; cbn [obind];
      [| intros [= ->]; eapply merge_loop_in_bounds; eassumption | discriminate].
    destruct (while_ fuel (drainA_cond elemsA) (drainA_body elemsA) s1)
      as [s2|e2|] eqn:H2; cbn [obind];
      [| intros [= ->]; revert H2;
         apply (while_no_fault _ _ (fun _ => True)); [auto | | exact I];
         intros s _ Hc Hb; destruct (drainA_body_safe elemsA s Hc) as [s' Hs']; congruence
       | discriminate].
    apply (while_no_fault _ _ (fun _ => True)); [auto | | exact I].
    intros s _ Hc Hb. destruct (drainB_body_safe elemsB s Hc) as [s' Hs']. congruence.
Qed.

(** C4, evaluated on ids {1,2} against ids {3,4}: the count is 0 and the
    left diff sum is the sum of the left weights, but the right diff sum
    is the last right weight alone. *)
Theorem disjoint_ids_right_diff_is_last_weight
    (a1 a2 b1 b2 : V) (fuel : nat) :
  exists s,
    overlap_scan (2 + fuel) [mkElem 1 a1; mkElem 2 a2] [mkElem 3 b1; mkElem 4 b2] = Done s /\
    overlap_qty_ (res s) = 0 /\
    diff_sum_left_norm_ (res s) = Fadd (Fadd Fzero a1) a2 /\
    diff_sum_right_norm_ (res s) = Fset b2.
Proof.
  eexists. split.
  - apply overlap_scan_fuel_mono with (fuel := 2%nat); [reflexivity | lia].
  - cbn. repeat split; reflexivity.
Qed.

(** C6: the normalization never divides by zero, and each statistic is
    scaled by the reciprocal of the L2 norm of its vector exactly when
    that norm is positive and is returned as accumulated otherwise (the
    dot product takes both steps, each under its own guard).  And there is
    such a result, zero norms included: the call returns whenever the
    right list is at least as long as the left one and the loops are given
    the fuel for their iterations. *)
Theorem normalization_skipped_unless_norm_positive
    (fuel : nat) (objA objB : Object) (elemsA elemsB : list Elem) :
  UnpackSparseElements (data objA) (datalength objA) = Done elemsA ->
  UnpackSparseElements (data objB) (datalength objB) = Done elemsB ->
  ComputeOverlapInfo UnpackSparseElements fuel objA objB <> Fault DivByZero /\
  (forall r, ComputeOverlapInfo UnpackSparseElements fuel objA objB = Done r ->
   exists s, overlap_scan fuel elemsA elemsB = Done s /\
     let nl := l2 elemsA in
     let nr := l2 elemsB in
     let raw := res s in
     normalize nl nr raw = Done r /\
     (if Fpos nl
      then Fis0 nl = false /\
           overlap_sum_left_norm_ r = Fmul (overlap_sum_left_norm_ raw) (Frecip nl) /\
           diff_sum_left_norm_ r = Fmul (diff_sum_left_norm_ raw) (Frecip nl)
      else overlap_sum_left_norm_ r = overlap_sum_left_norm_ raw /\
           diff_sum_left_norm_ r = diff_sum_left_norm_ raw) /\
     (if Fpos nr
      then Fis0 nr = false /\
           overlap_sum_right_norm_ r = Fmul (overlap_sum_right_norm_ raw) (Frecip nr) /\
           diff_sum_right_norm_ r = Fmul (diff_sum_right_norm_ raw) (Frecip nr)
      else overlap_sum_right_norm_ r = overlap_sum_right_norm_ raw /\
           diff_sum_right_norm_ r = diff_sum_right_norm_ raw) /\
     overlap_dotprod_norm_ r =
       (let d := overlap_dotprod_norm_ raw in
        let d1 := if Fpos nl then Fmul d (Frecip nl) else d in
        if Fpos nr then Fmul d1 (Frecip nr) else d1) /\
     overlap_qty_ r = overlap_qty_ raw) /\
  (vsize elemsB < 2 ^ 32 -> vsize elemsA <= vsize elemsB ->
   (2 * length elemsA + length elemsB < fuel)%nat ->
   exists r, ComputeOverlapInfo UnpackSparseElements fuel objA objB = Done r).
Proof.
  intros HA HB.
  split; [| split; [| apply ComputeOverlapInfo_returns; assumption]];
    rewrite (ComputeOverlapInfo_decoded _ _ _ _ _ HA HB).
  - intros H. apply overlap_of_elems_fault in H. discriminate.
  - intros r H. apply overlap_of_elems_Done in H as (_ & _ & s & Hs & ->).
    exists s. split; [assumption |]. cbn zeta.
    split; [apply normalize_Done |].
    unfold normalized, scaled_by.
    cbn [overlap_qty_ overlap_dotprod_norm_ overlap_sum_left_norm_
         overlap_sum_right_norm_ diff_sum_left_norm_ diff_sum_right_norm_].
    destruct (Fpos (l2 elemsA)) eqn:Hl; destruct (Fpos (l2 elemsB)) eqn:Hr;
      rewrite ?(Fpos_nonzero _ Hl), ?(Fpos_nonzero _ Hr); repeat split; reflexivity.
Qed.

(** C10: the count returned by ComputeOverlapInfo is at most the number
    of elements decoded from the left record. *)
Theorem overlap_qty_at_most_left_size
    (fuel : nat) (objA objB : Object) (elemsA : list Elem) (r : OverlapInfo F) :
  UnpackSparseElements (data objA) (datalength objA) = Done elemsA ->
  ComputeOverlapInfo UnpackSparseElements fuel objA objB = Done r ->
  overlap_qty_ r <= vsize elemsA.
Proof.
  intros HA H. unfold ComputeOverlapInfo in H. rewrite HA in H. cbn [obind] in H.
  destruct (UnpackSparseElements (data objB) (datalength objB)) as [elemsB| |];
    try discriminate.
  cbn [obind] in H.
  apply overlap_of_elems_Done in H as (HszA & HszB & s & Hs & ->).
  destruct (overlap_scan_Done elemsA elemsB HszA HszB fuel s Hs)
    as ((_ & _ & _ & _ & _ & _ & _ & _ & Hq) & EA & _).
  cbn [normalized overlap_qty_]. lia.
Qed.

End OverlapInfoFacts.

(** ** CreateDenseVectFromObj *)

Section Dense.

Context {V F : Type} {AR : Arith V F}.

Abbreviation Elem := (SparseVectElem V).

Variable UnpackSparseElements : option buffer -> N -> outcome (list Elem).
Variable indexHash : N -> N.
Variable nElem : N.

Hypothesis nElem_pos : 0 < nElem.

Lemma dense_body_Done (pVect : list V) (e : Elem) :
  nElem <= vsize pVect ->
  exists x, pVect !! N.to_nat (indexHash (id_ e) mod nElem) = Some x /\
    dense_body indexHash nElem pVect e =
    Done (<[N.to_nat (indexHash (id_ e) mod nElem) := Vadd x (val_ e)]> pVect).
Proof.
  intros Hsz. unfold dense_body.
  destruct (nElem =? 0) eqn:E0; [apply N.eqb_eq in E0; lia |].
  assert (Hlt : indexHash (id_ e) mod nElem < nElem) by (apply N.mod_lt; lia).
  destruct (at_in_bounds pVect (indexHash (id_ e) mod nElem)) as [x Hx]; [lia |].
  exists x. split; [apply at_Done; assumption |]. rewrite Hx. reflexivity.
Qed.

(** Each slot ends as its initial content plus, in list order, the
    weights of the elements that hash to it. *)
Lemma for_each_dense (target : list Elem) (pVect : list V) :
  nElem <= vsize pVect ->
  exists out, for_each (dense_body indexHash nElem) target pVect = Done out /\
    length out = length pVect /\
    forall i : N, out !! N.to_nat i =
      (fun x => foldl Vadd x (hits indexHash nElem i target)) <$> pVect !! N.to_nat i.
Proof.
  revert pVect. induction target as [|e target IH]; intros pVect Hsz.
  - exists pVect. split; [reflexivity |]. split; [reflexivity |].
    intros i. cbn. destruct (pVect !! N.to_nat i); reflexivity.
  - destruct (dense_body_Done pVect e Hsz) as (x & Hx & Hb).
    cbn [for_each]. rewrite Hb. cbn [obind].
    set (idx := indexHash (id_ e) mod nElem) in *.
    destruct (IH (<[N.to_nat idx := Vadd x (val_ e)]> pVect)) as (out & -> & Hlen & Hout).
    { unfold vsize in *. rewrite length_insert. assumption. }
    exists out. split; [reflexivity |]. split; [rewrite Hlen; apply length_insert |].
    intros i. rewrite Hout. unfold hits. rewrite filter_cons.
    destruct (decide (indexHash (id_ e) mod nElem = i)) as [Ei|Ei].
    + fold idx in Ei. subst i. rewrite list_lookup_insert_eq by (eapply lookup_lt_Some; eassumption).
      rewrite Hx. reflexivity.
    + fold idx in Ei. rewrite list_lookup_insert_ne by lia. reflexivity.
Qed.

(** C7: the first [nElem] slots are zeroed, then every element's weight is
    added into slot [indexHash(id) mod nElem]: a slot holds the running
    sum, from zero and in list order, of the weights that hash to it; a
    slot no element hashes to holds zero; two elements that collide leave
    the sum of both weights; the array beyond [nElem] is untouched. *)
Theorem dense_slots_sum_colliding_weights
    (obj : Object) (pVect : list V) (target : list Elem) :
  UnpackSparseElements (data obj) (datalength obj) = Done target ->
  nElem <= vsize pVect ->
  exists out,
    CreateDenseVectFromObj UnpackSparseElements indexHash obj pVect nElem = Done out /\
    length out = length pVect /\
    (forall i, i < nElem ->
       out !! N.to_nat i = Some (foldl Vadd Vzero (hits indexHash nElem i target))) /\
    (forall i, i < nElem ->
       (forall e, e ∈ target -> indexHash (id_ e) mod nElem <> i) ->
       out !! N.to_nat i = Some Vzero) /\
    (forall e1 e2, target = [e1; e2] ->
       indexHash (id_ e1) mod nElem = indexHash (id_ e2) mod nElem ->
       out !! N.to_nat (indexHash (id_ e1) mod nElem) =
       Some (Vadd (Vadd Vzero (val_ e1)) (val_ e2))) /\
    (forall i, nElem <= i -> out !! N.to_nat i = pVect !! N.to_nat i).
Proof.
  intros Hdec Hsz. unfold CreateDenseVectFromObj, fill.
  destruct (vsize pVect <? nElem) eqn:E; [apply N.ltb_lt in E; lia |].
  cbn [obind]. rewrite Hdec. cbn [obind].
  set (pv := replicate (N.to_nat nElem) Vzero ++ drop (N.to_nat nElem) pVect).
  assert (Hlen : length pv = length pVect).
  { unfold pv, vsize in *. rewrite length_app, length_replicate, length_drop. lia. }
  destruct (for_each_dense target pv) as (out & -> & Hlen' & Hout).
  { unfold vsize in *. rewrite Hlen. assumption. }
  assert (Hslot : forall i, i < nElem ->
            out !! N.to_nat i = Some (foldl Vadd Vzero (hits indexHash nElem i target))).
  { intros i Hi. rewrite Hout. unfold pv.
    rewrite lookup_app_l by (rewrite length_replicate; lia).
    rewrite lookup_replicate_2 by lia. reflexivity. }
  exists out. split; [reflexivity |]. split; [congruence |].
  split; [exact Hslot |]. split; [| split].
  - intros i Hi Hno. rewrite (Hslot i Hi). unfold hits.
    rewrite filter_none; [reflexivity |].
    intros e He. apply Hno. assumption.
  - intros e1 e2 -> Hcol.
    rewrite Hslot by (apply N.mod_lt; lia). unfold hits.
    rewrite filter_cons_True by reflexivity.
    rewrite filter_cons_True by (symmetry; assumption). reflexivity.
  - intros i Hi. rewrite Hout. unfold hits. rewrite filter_none.
    + cbn [fmap list_fmap foldl]. unfold pv.
      rewrite lookup_app_r by (rewrite length_replicate; lia).
      rewrite length_replicate, lookup_drop.
      replace (N.to_nat nElem + (N.to_nat i - N.to_nat nElem))%nat with (N.to_nat i) by lia.
      destruct (pVect !! N.to_nat i); reflexivity.
    + intros e _ He.
      assert (indexHash (id_ e) mod nElem < nElem) by (apply N.mod_lt; lia). lia.
Qed.

End Dense.

(** ** ComputeOverlap *)

Section Overlap.

Context {V : Type}.

Abbreviation Elem := (SparseVectElem V).

Variable UnpackSparseElements : option buffer -> N -> outcome (list Elem).

Lemma IntersectSizeScalarFast_fuel_mono (fuel fuel' : nat)
    (pArr1 pArr2 : list N) (qty1 qty2 n : N) :
  IntersectSizeScalarFast fuel pArr1 qty1 pArr2 qty2 = Done n -> (fuel <= fuel')%nat ->
  IntersectSizeScalarFast fuel' pArr1 qty1 pArr2 qty2 = Done n.
Proof.
  unfold IntersectSizeScalarFast. intros H Hle.
  destruct (while_ fuel (isect_cond qty1 qty2) (isect_body pArr1 pArr2) (0, 0, 0))
    as [s| |] eqn:Hs; try discriminate.
  rewrite (while_fuel_mono _ _ _ _ _ _ Hs Hle). assumption.
Qed.

(** C8: on records that decode to the ids {1,3,5,7} and {3,5,9} the
    two-argument ComputeOverlap returns 2. *)
Theorem ComputeOverlap_1357_359
    (fuel : nat) (obj1 obj2 : Object) (elems1 elems2 : list Elem) :
  UnpackSparseElements (data obj1) (datalength obj1) = Done elems1 ->
  UnpackSparseElements (data obj2) (datalength obj2) = Done elems2 ->
  id_ <$> elems1 = [1; 3; 5; 7] ->
  id_ <$> elems2 = [3; 5; 9] ->
  ComputeOverlap UnpackSparseElements (4 + fuel) obj1 obj2 = Done 2.
Proof.
  intros H1 H2 E1 E2. unfold ComputeOverlap. rewrite H1, H2. cbn [obind].
  rewrite E1, E2.
  apply IntersectSizeScalarFast_fuel_mono with (fuel := 4%nat); [reflexivity | lia].
Qed.

End Overlap.

(** ** CreateObjFromVect: the payload buffer *)

Section Buffer.

Context {V : Type}.

Abbreviation Elem := (SparseVectElem V).

Variable PackSparseElements : list Elem -> heap -> packed * heap.

(** C9: when the packing step throws, the exception reaches the caller,
    no record is built, and the buffer [pData] points to (if packing got
    as far as allocating one) is released by exactly one [delete []];
    when it returns, nothing is released and the one record built holds
    the buffer. *)
Theorem CreateObjFromVect_buffer_ownership
    (id label : Z) (InpVect : list Elem) (h h1 : heap) (pk : packed) :
  PackSparseElements InpVect h = (pk, h1) ->
  (forall b, pData pk = Some b -> addr b ∈ live h1) ->
  if threw pk then
    exists h2,
      CreateObjFromVect PackSparseElements id label InpVect h = (Fault Thrown, h2) /\
      match pData pk with
      | Some b => live h2 = live h1 ∖ {[addr b]} /\ (addr b ∉ live h2) /\
                  freed h2 = addr b :: freed h1
      | None => h2 = h1
      end
  else
    CreateObjFromVect PackSparseElements id label InpVect h =
      (Done (mkObject id label (dataLen pk) (pData pk)), h1).
Proof.
  intros Hpk Hlive. unfold CreateObjFromVect. rewrite Hpk.
  destruct (threw pk); [| reflexivity].
  destruct (pData pk) as [b|] eqn:Hp; cbn [delete_arr].
  - rewrite bool_decide_eq_true_2 by (apply Hlive; reflexivity).
    eexists. split; [reflexivity |]. cbn [live freed].
    split; [reflexivity |]. split; [| reflexivity].
    intros [_ Hnot]%elem_of_difference. apply Hnot, elem_of_singleton. reflexivity.
  - exists h1. split; reflexivity.
Qed.

End Buffer.

(** ** The payload layout: encoding then decoding *)

Lemma byte_of_N_value (n : N) : Byte.to_N (byte_of_N n) = n mod 256.
Proof.
  unfold byte_of_N. destruct (Byte.of_N (n mod 256)) as [b|] eqn:E.
  - apply Byte.to_of_N. assumption.
  - apply Byte.of_N_None_iff in E.
    assert (n mod 256 < 256) by (apply N.mod_lt; discriminate). lia.
Qed.

Lemma length_le_bytes (k : nat) (n : N) : length (le_bytes k n) = k.
Proof. revert n. induction k as [|k IH]; intros n; cbn; [| rewrite IH]; reflexivity. Qed.

Lemma le_val_le_bytes (k : nat) (n : N) :
  le_val (le_bytes k n) = n mod 256 ^ N.of_nat k.
Proof.
  revert n. induction k as [|k IH]; intros n.
  - cbn. rewrite N.mod_1_r. reflexivity.
  - cbn [le_bytes le_val]. rewrite byte_of_N_value, IH.
    replace (N.of_nat (S k)) with (N.succ (N.of_nat k)) by lia.
    rewrite N.pow_succ_r by lia.
    rewrite (N.Div0.mod_mul_r n 256 (256 ^ N.of_nat k)). reflexivity.
Qed.

Lemma le_val_le_bytes_small (k : nat) (n : N) :
  n < 256 ^ N.of_nat k -> le_val (le_bytes k n) = n.
Proof. intros H. rewrite le_val_le_bytes. apply N.mod_small. assumption. Qed.

Section CodecFacts.

Context {V : Type} {VL : ValLayout V} {VLok : ValLayoutOk V}.

Abbreviation Elem := (SparseVectElem V).

Lemma length_encode_elem (e : Elem) : length (encode_elem e) = elem_width.
Proof.
  unfold encode_elem, elem_width.
  rewrite length_app, length_le_bytes, val_bytes_length. reflexivity.
Qed.

Lemma length_encode_elems (v : list Elem) :
  length (concat (encode_elem <$> v)) = (length v * elem_width)%nat.
Proof.
  induction v as [|e v IH]; [reflexivity |].
  rewrite fmap_cons. cbn [concat length].
  rewrite length_app, IH, length_encode_elem. reflexivity.
Qed.

Lemma decode_encode_elem (e : Elem) (rest : list Byte.byte) :
  uint32_id e ->
  mkElem (le_val (take 4 (encode_elem e ++ rest)))
         (bytes_val (take val_width (drop 4 (encode_elem e ++ rest)))) = e /\
  drop elem_width (encode_elem e ++ rest) = rest.
Proof.
  intros Hid. unfold encode_elem, elem_width.
  rewrite <- app_assoc.
  rewrite (take_app_length' (le_bytes 4 (id_ e))) by (rewrite length_le_bytes; reflexivity).
  rewrite (drop_app_length' (le_bytes 4 (id_ e))) by (rewrite length_le_bytes; reflexivity).
  rewrite (take_app_length' (val_bytes (val_ e))) by (symmetry; apply val_bytes_length).
  rewrite le_val_le_bytes_small by exact Hid. rewrite bytes_val_bytes.
  split; [destruct e; reflexivity |].
  rewrite app_assoc. apply drop_app_length'.
  rewrite length_app, length_le_bytes, val_bytes_length. reflexivity.
Qed.

Lemma decode_encode_elems (v : list Elem) (rest : list Byte.byte) :
  Forall uint32_id v ->
  decode_elems (length v) (concat (encode_elem <$> v) ++ rest) = v.
Proof.
  induction 1 as [|e v He Hv IH]; [reflexivity |].
  cbn [length fmap list_fmap concat decode_elems]. rewrite <- app_assoc.
  destruct (decode_encode_elem e (concat (encode_elem <$> v) ++ rest) He) as [-> ->].
  rewrite IH. reflexivity.
Qed.

Lemma Unpack_encode (v : list Elem) (p : positive) :
  Forall uint32_id v -> vsize v < 2 ^ 64 ->
  UnpackSparseElements_layout (Some (mkBuffer p (encode v))) (vsize (encode v)) = Done v.
Proof.
  intros Hv Hsz. unfold UnpackSparseElements_layout. cbn [bytes].
  rewrite N.ltb_irrefl.
  assert (Htake : take (N.to_nat (vsize (encode v))) (encode v) = encode v)
    by (unfold vsize; rewrite Nat2N.id; apply firstn_all).
  assert (Hlen : length (encode v) = (8 + length v * elem_width)%nat).
  { unfold encode. rewrite length_app, length_le_bytes, length_encode_elems.
    reflexivity. }
  assert (H8 : take 8 (encode v) = le_bytes 8 (vsize v))
    by (apply take_app_length'; rewrite length_le_bytes; reflexivity).
  assert (Hd : drop 8 (encode v) = concat (encode_elem <$> v))
    by (apply drop_app_length'; rewrite length_le_bytes; reflexivity).
  rewrite !Htake, H8, Hd, le_val_le_bytes_small by exact Hsz.
  destruct (vsize (encode v) <? 8) eqn:E8;
    [apply N.ltb_lt in E8; unfold vsize in E8; lia |].
  destruct (vsize (encode v) - 8 <? vsize v * N.of_nat elem_width) eqn:E;
    [apply N.ltb_lt in E; unfold vsize in E; lia |].
  unfold vsize. rewrite Nat2N.id.
  rewrite <- (app_nil_r (concat (encode_elem <$> v))).
  apply f_equal, decode_encode_elems. assumption.
Qed.

End CodecFacts.

(** Two words with the same bits are the same word. *)
Lemma word_eq (w : nat) (x y : word w) : wbits x = wbits y -> x = y.
Proof.
  destruct x as [n Hn], y as [m Hm]. cbn. intros ->.
  f_equal. apply (proof_irrel Hn Hm).
Qed.

(** The [w] bytes of a value are a lawful layout, whatever the bit pattern
    (a negative float, a zero, a NaN). *)
#[export] Instance LayoutWordOk (w : nat) : ValLayoutOk (word w).
Proof.
  split.
  - intros x. apply length_le_bytes.
  - intros x. apply word_eq. cbn [bytes_val val_bytes LayoutWord word_of wbits].
    rewrite le_val_le_bytes, N.Div0.mod_mod. apply N.mod_small.
    apply N.ltb_lt, wbits_ok.
Qed.

(** The eight-byte layout of the integer instance reads every 64-bit
    two's complement value back, the negative ones included. *)
Lemma LayoutZ_int64 (z : Z) :
  (- 2 ^ 63 <= z < 2 ^ 63)%Z -> bytes_val (val_bytes z) = z.
Proof.
  intros Hz. cbn [bytes_val val_bytes LayoutZ].
  assert (Hm : (0 <= z mod 2 ^ 64 < 2 ^ 64)%Z) by (apply Z.mod_pos_bound; lia).
  rewrite le_val_le_bytes_small
    by (change (256 ^ N.of_nat 8) with (Z.to_N (2 ^ 64)); lia).
  rewrite Z2N.id by lia. cbn zeta.
  destruct (Z.ltb_spec (z mod 2 ^ 64) (2 ^ 63)) as [Hlt | Hge].
  - destruct (Z.neg_nonneg_cases z) as [Hneg | Hpos].
    + rewrite <- (Z.mod_add z 1) in Hlt by lia.
      rewrite Z.mod_small in Hlt by lia. lia.
    + apply Z.mod_small. lia.
  - destruct (Z.neg_nonneg_cases z) as [Hneg | Hpos].
    + rewrite <- (Z.mod_add z 1) by lia. rewrite Z.mod_small by lia. lia.
    + rewrite Z.mod_small in Hge by lia. lia.
Qed.

(** A negative weight is read back from its record. *)
Example CreateVectFromObj_negative_weight :
  CreateVectFromObj UnpackSparseElements_layout (object_of [(1, (-1)%Z); (4, 5%Z)]) =
  Done (elems_of [(1, (-1)%Z); (4, 5%Z)]).
Proof. reflexivity. Qed.

(** C5: for a value type of any width [w] (a value is its [w] bytes, every
    bit pattern included), decoding the record the encoder builds from a
    list sorted by id with unique ids returns exactly the list: order, ids
    and values.  The ids are [uint32_t] and the element count fits the
    [size_t] written in front. *)
Theorem CreateVectFromObj_CreateObjFromVect
    (w : nat) (id label : Z) (v : list (SparseVectElem (word w))) (h : heap) :
  sorted_unique v ->
  Forall uint32_id v -> vsize v < 2 ^ 64 ->
  exists obj h',
    CreateObjFromVect PackSparseElements_layout id label v h = (Done obj, h') /\
    obj_id obj = id /\ obj_label obj = label /\
    CreateVectFromObj UnpackSparseElements_layout obj = Done v.
Proof.
  intros _ Hv Hsz. unfold CreateObjFromVect, PackSparseElements_layout.
  cbn [threw pData dataLen]. eexists. eexists. split; [reflexivity |].
  cbn [obj_id obj_label]. split; [reflexivity |]. split; [reflexivity |].
  unfold CreateVectFromObj. cbn [data datalength].
  apply Unpack_encode; assumption.
Qed.

(** ** The statements on concrete records *)

(** The regression example of the specification, before normalization:
    one match, the left fields summed, the right fields overwritten. *)
Example scan_vecA_vecB :
  overlap_scan 10 (elems_of vecA) (elems_of vecB) =
  Done (mkScan 2 2 (mkOverlapInfo 1 9%Z 3%Z 3%Z 2%Z 1%Z)
          [(DiffLeft, 2%Z); (OverlapLeft, 3%Z); (OverlapRight, 3%Z); (DiffRight, 1%Z)]).
Proof. reflexivity. Qed.

(** Disjoint ids with right weights 1 and 2: the right diff sum is 2. *)
Example scan_disjoint_ids :
  exists s,
    overlap_scan 10 (elems_of [(1, 1%Z); (2, 1%Z)]) (elems_of [(3, 1%Z); (4, 2%Z)]) = Done s /\
    res s = mkOverlapInfo 0 0%Z 0%Z 0%Z 2%Z 2%Z.
Proof. eexists. split; reflexivity. Qed.

(** Left ids 1, 2, 5, 50, 70 with weights 1, 2, 4, 6, 8 against right ids
    2, 3, 4, 5, 6, 70 with weights 1, 2, 3, 5, 6, 11, in rational
    arithmetic.  The merge loop adds the left weight of id 1 to the diff
    sum, matches ids 2 and 5 and assigns the right weights of ids 3, 4
    and 6; the left drain adds the weights of ids 50 and 70, the right
    drain assigns the weight of id 70.  The norms are 11 and 14: the left
    sums are (2 + 4) / 11 and (1 + 6 + 8) / 11, the right fields are
    5 / 14 and 11 / 14, the last weight assigned to each (their sums would
    be 6 / 14 and 22 / 14). *)
Lemma left_fields_accumulate_right_fields_keep_last_witness :
  exists r,
    ComputeOverlapInfo (AR := ArithZQ) UnpackSparseElements_layout 20
      (object_of vecP) (object_of vecQ) = Done r /\
    overlap_sum_left_norm_ r = QArith_base.Qmake 6 11 /\
    diff_sum_left_norm_ r = QArith_base.Qmake 15 11 /\
    overlap_sum_right_norm_ r = QArith_base.Qmake 5 14 /\
    diff_sum_right_norm_ r = QArith_base.Qmake 11 14.
Proof.
  destruct (left_fields_accumulate_right_fields_keep_last (AR := ArithZQ)
              UnpackSparseElements_layout 20 (object_of vecP) (object_of vecQ)
              (elems_of vecP) (elems_of vecQ)) as [Hres Hret];
    [vm_compute; reflexivity | vm_compute; reflexivity |].
  destruct Hret as [r Hr]; [by vm_compute | by vm_compute | cbn; lia |].
  destruct (Hres r Hr) as (s & Hs & _ & _ & HdL & HoL & HdR & HoR).
  vm_compute in Hs. injection Hs as <-.
  exists r. split; [exact Hr |].
  rewrite HdL, HoL, HdR, HoR. repeat split; reflexivity.
Defined.

Lemma merge_loop_right_read_bounds_witness :
  vsize (elems_of vecA) <= vsize (elems_of vecB) /\
  merge_loop 10 (elems_of vecA) (elems_of vecB) <> Fault OutOfBounds /\
  overlap_of_elems 10 (elems_of vecA) (elems_of vecB) <> Fault OutOfBounds.
Proof.
  split; [by vm_compute |].
  apply (proj2 (merge_loop_right_read_bounds (V := Z) (F := Z))). by vm_compute.
Defined.

(** A left record of zero weights (ids 1, 2) against right ids 1, 3 with
    weights 3, 4, in rational arithmetic: the left norm is zero, its step
    is skipped and the call returns, with the right fields divided by the
    right norm 5.  On the records of norms 11 and 14 every statistic is
    divided, the dot product 2 * 1 + 4 * 5 by both. *)
Lemma normalization_skipped_unless_norm_positive_witness :
  (l2 (AR := ArithZQ) (elems_of vecO) = QArith_base.Qmake 0 1 /\
   l2 (AR := ArithZQ) (elems_of vecN) = QArith_base.Qmake 5 1 /\
   ComputeOverlapInfo (AR := ArithZQ) UnpackSparseElements_layout 20
     (object_of vecO) (object_of vecN) =
   Done (mkOverlapInfo 1 (QArith_base.Qmake 0 1)
           (QArith_base.Qmake 0 1) (QArith_base.Qmake 3 5)
           (QArith_base.Qmake 0 1) (QArith_base.Qmake 4 5))) /\
  (l2 (AR := ArithZQ) (elems_of vecP) = QArith_base.Qmake 11 1 /\
   l2 (AR := ArithZQ) (elems_of vecQ) = QArith_base.Qmake 14 1 /\
   ComputeOverlapInfo (AR := ArithZQ) UnpackSparseElements_layout 20
     (object_of vecP) (object_of vecQ) =
   Done (mkOverlapInfo 2 (QArith_base.Qmake 1 7)
           (QArith_base.Qmake 6 11) (QArith_base.Qmake 5 14)
           (QArith_base.Qmake 15 11) (QArith_base.Qmake 11 14))).
Proof.
  split.
  - destruct (normalization_skipped_unless_norm_positive (AR := ArithZQ)
                UnpackSparseElements_layout 20 (object_of vecO) (object_of vecN)
                (elems_of vecO) (elems_of vecN)) as (_ & Hres & Hret);
      [vm_compute; reflexivity | vm_compute; reflexivity |].
    destruct Hret as [r Hr]; [by vm_compute | by vm_compute | cbn; lia |].
    destruct (Hres r Hr) as (s & Hs & Hn & _).
    vm_compute in Hs. injection Hs as <-.
    vm_compute in Hn. injection Hn as <-.
    split; [reflexivity |]. split; [reflexivity | exact Hr].
  - destruct (normalization_skipped_unless_norm_positive (AR := ArithZQ)
                UnpackSparseElements_layout 20 (object_of vecP) (object_of vecQ)
                (elems_of vecP) (elems_of vecQ)) as (_ & Hres & Hret);
      [vm_compute; reflexivity | vm_compute; reflexivity |].
    destruct Hret as [r Hr]; [by vm_compute | by vm_compute | cbn; lia |].
    destruct (Hres r Hr) as (s & Hs & Hn & _).
    vm_compute in Hs. injection Hs as <-.
    vm_compute in Hn. injection Hn as <-.
    split; [reflexivity |]. split; [reflexivity | exact Hr].
Defined.

Lemma overlap_qty_at_most_left_size_witness :
  exists r,
    ComputeOverlapInfo UnpackSparseElements_layout 10 (object_of vecA) (object_of vecB) = Done r /\
    overlap_qty_ r <= vsize (elems_of vecA).
Proof.
  eexists. split; [vm_compute; reflexivity |].
  apply (overlap_qty_at_most_left_size UnpackSparseElements_layout 10
           (object_of vecA) (object_of vecB)); vm_compute; reflexivity.
Defined.

Lemma dense_slots_sum_colliding_weights_witness :
  exists out,
    CreateDenseVectFromObj UnpackSparseElements_layout (fun x => x)
      (object_of [(1, 1%Z); (5, 2%Z)]) [9%Z; 9%Z; 9%Z; 9%Z; 9%Z] 4 = Done out /\
    out !! 1%nat = Some 3%Z /\ out !! 0%nat = Some 0%Z /\ out !! 4%nat = Some 9%Z.
Proof.
  destruct (dense_slots_sum_colliding_weights UnpackSparseElements_layout (fun x => x) 4
              eq_refl (object_of [(1, 1%Z); (5, 2%Z)]) [9%Z; 9%Z; 9%Z; 9%Z; 9%Z]
              (elems_of [(1, 1%Z); (5, 2%Z)]))
    as (out & Hrun & _ & Hslot & _ & Hcol & Hrest);
    [vm_compute; reflexivity | by vm_compute |].
  exists out. split; [exact Hrun |].
  split; [exact (Hcol _ _ eq_refl eq_refl) |].
  split; [exact (Hslot 0 eq_refl) | apply (Hrest 4); by vm_compute].
Defined.

Lemma ComputeOverlap_1357_359_witness :
  ComputeOverlap UnpackSparseElements_layout 4
    (object_of [(1, 0%Z); (3, 0%Z); (5, 0%Z); (7, 0%Z)])
    (object_of [(3, 0%Z); (5, 0%Z); (9, 0%Z)]) = Done 2.
Proof.
  apply (ComputeOverlap_1357_359 UnpackSparseElements_layout 0
           (object_of [(1, 0%Z); (3, 0%Z); (5, 0%Z); (7, 0%Z)])
           (object_of [(3, 0%Z); (5, 0%Z); (9, 0%Z)])
           (elems_of [(1, 0%Z); (3, 0%Z); (5, 0%Z); (7, 0%Z)])
           (elems_of [(3, 0%Z); (5, 0%Z); (9, 0%Z)])); vm_compute; reflexivity.
Defined.

Lemma CreateObjFromVect_buffer_ownership_witness :
  exists h2,
    CreateObjFromVect PackSparseElements_throwing 7%Z 0%Z (elems_of vecA) heap0 =
      (Fault Thrown, h2) /\
    live h2 = live (PackSparseElements_throwing (elems_of vecA) heap0).2 ∖ {[1%positive]} /\
    (1%positive ∉ live h2) /\
    freed h2 = [1%positive].
Proof.
  apply (CreateObjFromVect_buffer_ownership PackSparseElements_throwing 7%Z 0%Z
           (elems_of vecA) heap0
           (PackSparseElements_throwing (elems_of vecA) heap0).2
           (PackSparseElements_throwing (elems_of vecA) heap0).1 eq_refl).
  intros b [= <-]. by vm_compute.
Defined.

Lemma CreateVectFromObj_CreateObjFromVect_witness :
  exists obj h',
    CreateObjFromVect PackSparseElements_layout 7%Z 3%Z (float_elems vecF) heap0 =
      (Done obj, h') /\
    obj_id obj = 7%Z /\ obj_label obj = 3%Z /\
    CreateVectFromObj UnpackSparseElements_layout obj = Done (float_elems vecF).
Proof.
  apply (CreateVectFromObj_CreateObjFromVect 4 7%Z 3%Z (float_elems vecF) heap0).
  - reflexivity.
  - repeat constructor; reflexivity.
  - reflexivity.
Defined.

(** ** Lists sorted by id *)

Lemma strictly_ascending_cons (a : N) (l : list N) :
  strictly_ascending (a :: l) = true ->
  Forall (fun y => a < y) l /\ strictly_ascending l = true.
Proof.
  revert a. induction l as [|b l IH]; intros a H; [split; [constructor | reflexivity] |].
  cbn [strictly_ascending] in H. apply andb_true_iff in H as [Hab Hl].
  apply N.ltb_lt in Hab. destruct (IH b Hl) as [Hb Hl'].
  split; [| exact Hl]. constructor; [exact Hab |].
  eapply Forall_impl; [exact Hb |]. intros y Hy. cbn in Hy. lia.
Qed.

Lemma strictly_ascending_lookup (ids : list N) (i j : nat) (x y : N) :
  strictly_ascending ids = true -> (i < j)%nat ->
  ids !! i = Some x -> ids !! j = Some y -> x < y.
Proof.
  revert i j. induction ids as [|a ids IH]; intros i j Hs Hij Hi Hj; [discriminate |].
  destruct (strictly_ascending_cons a ids Hs) as [Ha Hids].
  destruct j as [|j]; [lia |]. destruct i as [|i].
  - injection Hi as <-. cbn in Hj.
    rewrite Forall_forall in Ha. apply Ha. eapply list_elem_of_lookup_2. exact Hj.
  - cbn in Hi, Hj. apply (IH i j); [assumption | lia | assumption | assumption].
Qed.

Lemma sorted_unique_lookup {V : Type} (v : list (SparseVectElem V)) (i j : nat)
    (x y : SparseVectElem V) :
  sorted_unique v -> (i < j)%nat -> v !! i = Some x -> v !! j = Some y ->
  id_ x < id_ y.
Proof.
  intros Hs Hij Hi Hj.
  apply (strictly_ascending_lookup (id_ <$> v) i j); [exact Hs | exact Hij | |];
    rewrite list_lookup_fmap; [rewrite Hi | rewrite Hj]; reflexivity.
Qed.

Lemma sorted_le {V : Type} (v : list (SparseVectElem V)) (i j : nat)
    (x y : SparseVectElem V) :
  sorted_unique v -> (i <= j)%nat -> v !! i = Some x -> v !! j = Some y ->
  id_ x <= id_ y.
Proof.
  intros Hs Hij Hi Hj. destruct (decide (i = j)) as [->|Hne].
  - rewrite Hi in Hj. injection Hj as <-. lia.
  - apply N.lt_le_incl.
    apply (sorted_unique_lookup v i j); [assumption | lia | assumption | assumption].
Qed.

Lemma id_elem_of {V : Type} (v : list (SparseVectElem V)) (n : N) :
  n ∈ (id_ <$> v) <-> exists i z, v !! i = Some z /\ id_ z = n.
Proof.
  rewrite list_elem_of_fmap. split.
  - intros (z & -> & Hz). apply list_elem_of_lookup in Hz as [i Hi]. eauto.
  - intros (i & z & Hi & <-). exists z. split; [reflexivity |].
    eapply list_elem_of_lookup_2. exact Hi.
Qed.

Section SharedAbsent.

Context {V : Type}.

Abbreviation Elem := (SparseVectElem V).

Lemma shared_with_snoc_in (w v : list Elem) (e : Elem) :
  id_ e ∈ (id_ <$> w) ->
  shared_with w (v ++ [e]) = shared_with w v ++ [e] /\
  absent_from w (v ++ [e]) = absent_from w v.
Proof.
  intros H. unfold shared_with, absent_from. rewrite !filter_app.
  rewrite filter_cons_True by exact H.
  rewrite (filter_cons_False (fun e => id_ e ∉ (id_ <$> w))) by (intros Hn; apply Hn, H).
  rewrite !filter_nil, app_nil_r. split; reflexivity.
Qed.

Lemma shared_with_snoc_out (w v : list Elem) (e : Elem) :
  id_ e ∉ (id_ <$> w) ->
  shared_with w (v ++ [e]) = shared_with w v /\
  absent_from w (v ++ [e]) = absent_from w v ++ [e].
Proof.
  intros H. unfold shared_with, absent_from. rewrite !filter_app.
  rewrite filter_cons_False by exact H.
  rewrite (filter_cons_True (fun e => id_ e ∉ (id_ <$> w))) by exact H.
  rewrite !filter_nil, app_nil_r. split; reflexivity.
Qed.

(** A list none of whose ids occurs in [w]. *)
Lemma absent_from_all (w v : list Elem) :
  (forall e, e ∈ v -> id_ e ∉ (id_ <$> w)) ->
  shared_with w v = [] /\ absent_from w v = v.
Proof.
  intros H. induction v as [|e v IH]; [split; reflexivity |].
  destruct IH as [IH1 IH2]; [intros x Hx; apply H; right; exact Hx |].
  unfold shared_with, absent_from in *.
  rewrite filter_cons_False by (intros Hin; exact (H e (list_elem_of_here _ _) Hin)).
  rewrite filter_cons_True by (apply H; left).
  rewrite IH1, IH2. split; reflexivity.
Qed.

Lemma shared_with_app (w v1 v2 : list Elem) :
  shared_with w (v1 ++ v2) = shared_with w v1 ++ shared_with w v2.
Proof. apply filter_app. Qed.

Lemma absent_from_app (w v1 v2 : list Elem) :
  absent_from w (v1 ++ v2) = absent_from w v1 ++ absent_from w v2.
Proof. apply filter_app. Qed.

Lemma writes_to_app (f : side_field) (l k : list (side_field * V)) :
  writes_to f (l ++ k) = writes_to f l ++ writes_to f k.
Proof. unfold writes_to. rewrite filter_app, fmap_app. reflexivity. Qed.

Lemma writes_to_writes_of (f g : side_field) (es : list Elem) :
  writes_to f (writes_of g es) = if side_field_eqb g f then val_ <$> es else [].
Proof.
  unfold writes_to, writes_of. induction es as [|e es IH].
  - destruct (side_field_eqb g f); reflexivity.
  - rewrite fmap_cons, filter_cons. cbn [fst].
    destruct (side_field_eqb g f) eqn:E.
    + rewrite decide_True by reflexivity. rewrite fmap_cons, IH. reflexivity.
    + rewrite decide_False by discriminate. exact IH.
Qed.

End SharedAbsent.

(** ** The merge loop on lists sorted by id *)

Section MergeSemantics.

Context {V F : Type} {AR : Arith V F}.

Abbreviation Elem := (SparseVectElem V).

Variables elemsA elemsB : list Elem.

Hypothesis sortedA : sorted_unique elemsA.
Hypothesis sortedB : sorted_unique elemsB.
Hypothesis sizeA : vsize elemsA < 2 ^ 32.
Hypothesis sizeB : vsize elemsB < 2 ^ 32.

Lemma merge_inv_init : merge_inv elemsA elemsB scan0.
Proof.
  clear sortedA sortedB sizeA sizeB.
  unfold merge_inv. cbn.
  split; [lia |]. split; [intros; lia |]. split; [intros; lia |].
  repeat split; reflexivity.
Qed.

Lemma merge_body_merge_inv (s s' : scan V F) :
  merge_inv elemsA elemsB s -> merge_cond elemsA elemsB s = true ->
  merge_body elemsA elemsB s = Done s' -> merge_inv elemsA elemsB s'.
Proof.
  intros (Hb & I1 & I2 & L1 & L2 & L3 & L4 & Q) Hc Hbody.
  unfold merge_cond in Hc. apply andb_true_iff in Hc as [HcA HcB].
  apply N.ltb_lt in HcA, HcB.
  unfold merge_body in Hbody.
  destruct (at_ elemsA (curA s)) as [x| |] eqn:Hx; try discriminate.
  destruct (at_ elemsB (curB s)) as [y| |] eqn:Hy; try discriminate.
  cbn [obind] in Hbody.
  pose proof (at_lt _ _ _ Hx) as HltA. pose proof (at_lt _ _ _ Hy) as HltB.
  pose proof (take_succ_at _ _ _ Hx) as TA. pose proof (take_succ_at _ _ _ Hy) as TB.
  apply at_Done in Hx, Hy.
  set (a := N.to_nat (curA s)) in *. set (b := N.to_nat (curB s)) in *.
  assert (Hbn : (b < length elemsA)%nat) by (unfold vsize in HcB; lia).
  assert (Hy' : reachable_right elemsA elemsB !! b = Some y).
  { unfold reachable_right. rewrite lookup_take_lt by exact Hbn. exact Hy. }
  destruct (id_ x <? id_ y) eqn:Exy; [| destruct (id_ y <? id_ x) eqn:Eyx];
    injection Hbody as <-; unfold merge_inv; cbn [curA curB res wlog];
    rewrite ?u32_small by lia; rewrite ?TA, ?TB; fold a b.
  - (* idA < idB *)
    apply N.ltb_lt in Exy.
    assert (Hout : id_ x ∉ (id_ <$> reachable_right elemsA elemsB)).
    { intros (j & z & Hj & Hz)%id_elem_of. unfold reachable_right in Hj.
      apply lookup_take_Some in Hj as [Hj Hjn].
      destruct (decide (j < b)%nat) as [Hlt|Hge].
      - pose proof (I2 a j x z Hlt (Nat.le_refl a) Hx Hj). lia.
      - pose proof (sorted_le elemsB b j y z sortedB ltac:(lia) Hy Hj). lia. }
    destruct (shared_with_snoc_out _ (take a elemsA) x Hout) as [-> ->].
    rewrite !writes_to_snoc. cbn [side_field_eqb]. rewrite ?app_nil_r.
    split; [exact Hb |]. split; [| split].
    + intros i j x0 y0 Hi Hj Hx0 Hy0.
      destruct (decide (i = a)) as [->|Hne].
      * rewrite Hx in Hx0. injection Hx0 as <-.
        pose proof (sorted_le elemsB b j y y0 sortedB Hj Hy Hy0). lia.
      * apply (I1 i j); [lia | assumption | assumption | assumption].
    + intros i j x0 y0 Hj Hi. apply (I2 i j); [assumption | lia].
    + rewrite fmap_app, L2. repeat split; assumption.
  - (* idA > idB *)
    apply N.ltb_lt in Eyx.
    assert (Hout : id_ y ∉ (id_ <$> elemsA)).
    { intros (i & z & Hi & Hz)%id_elem_of.
      destruct (decide (i < a)%nat) as [Hlt|Hge].
      - pose proof (I1 i b z y Hlt (Nat.le_refl b) Hi Hy). lia.
      - pose proof (sorted_le elemsA a i x z sortedA ltac:(lia) Hx Hi). lia. }
    destruct (shared_with_snoc_out _ (take b elemsB) y Hout) as [-> ->].
    rewrite !writes_to_snoc. cbn [side_field_eqb]. rewrite ?app_nil_r.
    split; [lia |]. split; [| split].
    + intros i j x0 y0 Hi Hj. apply (I1 i j); [assumption | lia].
    + intros i j x0 y0 Hj Hi Hx0 Hy0.
      destruct (decide (j = b)) as [->|Hne].
      * rewrite Hy in Hy0. injection Hy0 as <-.
        pose proof (sorted_le elemsA a i x x0 sortedA Hi Hx Hx0). lia.
      * apply (I2 i j); [lia | assumption | assumption | assumption].
    + rewrite fmap_app, L4. repeat split; assumption.
  - (* idA = idB *)
    apply N.ltb_ge in Exy, Eyx.
    assert (Exy' : id_ x = id_ y) by lia.
    assert (HinB : id_ x ∈ (id_ <$> reachable_right elemsA elemsB)).
    { apply id_elem_of. exists b, y. split; [exact Hy' | congruence]. }
    assert (HinA : id_ y ∈ (id_ <$> elemsA)).
    { apply id_elem_of. exists a, x. split; [exact Hx | congruence]. }
    destruct (shared_with_snoc_in _ (take a elemsA) x HinB) as [-> ->].
    destruct (shared_with_snoc_in _ (take b elemsB) y HinA) as [-> ->].
    replace (wlog s ++ [(OverlapLeft, val_ x); (OverlapRight, val_ y)])
      with ((wlog s ++ [(OverlapLeft, val_ x)]) ++ [(OverlapRight, val_ y)])
      by (rewrite <- app_assoc; reflexivity).
    rewrite !writes_to_snoc. cbn [side_field_eqb]. rewrite ?app_nil_r.
    split; [lia |]. split; [| split].
    + intros i j x0 y0 Hi Hj Hx0 Hy0.
      pose proof (sorted_unique_lookup elemsB b j y y0 sortedB ltac:(lia) Hy Hy0).
      pose proof (sorted_le elemsA i a x0 x sortedA ltac:(lia) Hx0 Hx). lia.
    + intros i j x0 y0 Hj Hi Hx0 Hy0.
      pose proof (sorted_unique_lookup elemsA a i x x0 sortedA ltac:(lia) Hx Hx0).
      pose proof (sorted_le elemsB j b y0 y sortedB ltac:(lia) Hy0 Hy). lia.
    + rewrite !fmap_app, L1, L3. repeat split; try assumption.
      cbn [add_overlap overlap_qty_]. rewrite Q, L1, !length_app. cbn [length]. lia.
Qed.

End MergeSemantics.

(** ** The two drain loops, as runs of writes *)

Section Drains.

Context {V F : Type} {AR : Arith V F}.

Abbreviation Elem := (SparseVectElem V).

Variables elemsA elemsB : list Elem.

Hypothesis sizeA : vsize elemsA < 2 ^ 32.
Hypothesis sizeB : vsize elemsB < 2 ^ 32.

Lemma take_drop_succ {T : Type} (l : list T) (n k : nat) (x : T) :
  l !! (n + k)%nat = Some x ->
  take (S k) (drop n l) = take k (drop n l) ++ [x].
Proof. intros H. apply take_S_r. rewrite lookup_drop. exact H. Qed.

Lemma writes_of_snoc (f : side_field) (es : list Elem) (e : Elem) :
  writes_of f (es ++ [e]) = writes_of f es ++ [(f, val_ e)].
Proof. unfold writes_of. rewrite fmap_app. reflexivity. Qed.

(** The left drain appends the rest of the left list to [diff_sum_left_norm_]
    and leaves everything else alone. *)
Lemma drainA_run (fuel : nat) (s s' : scan V F) :
  curA s <= vsize elemsA ->
  while_ fuel (drainA_cond elemsA) (drainA_body elemsA) s = Done s' ->
  curA s' = vsize elemsA /\ curB s' = curB s /\
  wlog s' = wlog s ++ writes_of DiffLeft (drop (N.to_nat (curA s)) elemsA) /\
  overlap_qty_ (res s') = overlap_qty_ (res s) /\
  overlap_dotprod_norm_ (res s') = overlap_dotprod_norm_ (res s) /\
  overlap_sum_left_norm_ (res s') = overlap_sum_left_norm_ (res s) /\
  overlap_sum_right_norm_ (res s') = overlap_sum_right_norm_ (res s) /\
  diff_sum_right_norm_ (res s') = diff_sum_right_norm_ (res s).
Proof.
  clear sizeB.
  intros Hle Hrun.
  apply (while_invariant _ _
    (fun t => curA s <= curA t /\ curA t <= vsize elemsA /\ curB t = curB s /\
       wlog t = wlog s ++ writes_of DiffLeft
                  (take (N.to_nat (curA t) - N.to_nat (curA s))
                        (drop (N.to_nat (curA s)) elemsA)) /\
       overlap_qty_ (res t) = overlap_qty_ (res s) /\
       overlap_dotprod_norm_ (res t) = overlap_dotprod_norm_ (res s) /\
       overlap_sum_left_norm_ (res t) = overlap_sum_left_norm_ (res s) /\
       overlap_sum_right_norm_ (res t) = overlap_sum_right_norm_ (res s) /\
       diff_sum_right_norm_ (res t) = diff_sum_right_norm_ (res s)))
    in Hrun as [(H1 & H2 & H3 & H4 & H5) Hc].
  - unfold drainA_cond in Hc. apply N.ltb_ge in Hc.
    assert (E : curA s' = vsize elemsA) by lia.
    split; [exact E |]. split; [exact H3 |]. split; [| exact H5].
    rewrite H4. f_equal. f_equal. apply take_ge.
    rewrite length_drop, E. unfold vsize. lia.
  - intros t t' (H1 & H2 & H3 & H4 & H5 & H6 & H7 & H8 & H9) Hc Hb.
    unfold drainA_body in Hb.
    destruct (at_ elemsA (curA t)) as [x| |] eqn:Hx; try discriminate.
    cbn [obind] in Hb. injection Hb as <-.
    pose proof (at_lt _ _ _ Hx) as Hlt. apply at_Done in Hx.
    cbn [curA curB res wlog add_diff_sum_left overlap_qty_ overlap_dotprod_norm_
         overlap_sum_left_norm_ overlap_sum_right_norm_ diff_sum_right_norm_].
    rewrite u32_small by lia.
    split; [lia |]. split; [lia |]. split; [exact H3 |].
    split; [| repeat split; assumption].
    replace (N.to_nat (curA t + 1) - N.to_nat (curA s))%nat
      with (S (N.to_nat (curA t) - N.to_nat (curA s))) by lia.
    rewrite (take_drop_succ elemsA _ _ x)
      by (replace (N.to_nat (curA s) + (N.to_nat (curA t) - N.to_nat (curA s)))%nat
            with (N.to_nat (curA t)) by lia; exact Hx).
    rewrite writes_of_snoc, H4, app_assoc. reflexivity.
  - split; [lia |]. split; [exact Hle |]. split; [reflexivity |].
    rewrite Nat.sub_diag. cbn [take]. unfold writes_of. cbn.
    rewrite app_nil_r. repeat split; reflexivity.
Qed.

(** The right drain assigns the rest of the right list, in order, to
    [diff_sum_right_norm_] and leaves everything else alone. *)
Lemma drainB_run (fuel : nat) (s s' : scan V F) :
  curB s <= vsize elemsB ->
  while_ fuel (drainB_cond elemsB) (drainB_body elemsB) s = Done s' ->
  curB s' = vsize elemsB /\ curA s' = curA s /\
  wlog s' = wlog s ++ writes_of DiffRight (drop (N.to_nat (curB s)) elemsB) /\
  overlap_qty_ (res s') = overlap_qty_ (res s) /\
  overlap_dotprod_norm_ (res s') = overlap_dotprod_norm_ (res s) /\
  overlap_sum_left_norm_ (res s') = overlap_sum_left_norm_ (res s) /\
  overlap_sum_right_norm_ (res s') = overlap_sum_right_norm_ (res s) /\
  diff_sum_left_norm_ (res s') = diff_sum_left_norm_ (res s).
Proof.
  clear sizeA.
  intros Hle Hrun.
  apply (while_invariant _ _
    (fun t => curB s <= curB t /\ curB t <= vsize elemsB /\ curA t = curA s /\
       wlog t = wlog s ++ writes_of DiffRight
                  (take (N.to_nat (curB t) - N.to_nat (curB s))
                        (drop (N.to_nat (curB s)) elemsB)) /\
       overlap_qty_ (res t) = overlap_qty_ (res s) /\
       overlap_dotprod_norm_ (res t) = overlap_dotprod_norm_ (res s) /\
       overlap_sum_left_norm_ (res t) = overlap_sum_left_norm_ (res s) /\
       overlap_sum_right_norm_ (res t) = overlap_sum_right_norm_ (res s) /\
       diff_sum_left_norm_ (res t) = diff_sum_left_norm_ (res s)))
    in Hrun as [(H1 & H2 & H3 & H4 & H5) Hc].
  - unfold drainB_cond in Hc. apply N.ltb_ge in Hc.
    assert (E : curB s' = vsize elemsB) by lia.
    split; [exact E |]. split; [exact H3 |]. split; [| exact H5].
    rewrite H4. f_equal. f_equal. apply take_ge.
    rewrite length_drop, E. unfold vsize. lia.
  - intros t t' (H1 & H2 & H3 & H4 & H5 & H6 & H7 & H8 & H9) Hc Hb.
    unfold drainB_body in Hb.
    destruct (at_ elemsB (curB t)) as [y| |] eqn:Hy; try discriminate.
    cbn [obind] in Hb. injection Hb as <-.
    pose proof (at_lt _ _ _ Hy) as Hlt. apply at_Done in Hy.
    cbn [curA curB res wlog set_diff_sum_right overlap_qty_ overlap_dotprod_norm_
         overlap_sum_left_norm_ overlap_sum_right_norm_ diff_sum_left_norm_].
    rewrite u32_small by lia.
    split; [lia |]. split; [lia |]. split; [exact H3 |].
    split; [| repeat split; assumption].
    replace (N.to_nat (curB t + 1) - N.to_nat (curB s))%nat
      with (S (N.to_nat (curB t) - N.to_nat (curB s))) by lia.
    rewrite (take_drop_succ elemsB _ _ y)
      by (replace (N.to_nat (curB s) + (N.to_nat (curB t) - N.to_nat (curB s)))%nat
            with (N.to_nat (curB t)) by lia; exact Hy).
    rewrite writes_of_snoc, H4, app_assoc. reflexivity.
  - split; [lia |]. split; [exact Hle |]. split; [reflexivity |].
    rewrite Nat.sub_diag. cbn [take]. unfold writes_of. cbn.
    rewrite app_nil_r. repeat split; reflexivity.
Qed.

End Drains.

(** ** What the scan writes, on lists sorted by id *)

Section ScanLog.

Context {V F : Type} {AR : Arith V F}.

Abbreviation Elem := (SparseVectElem V).

Variables elemsA elemsB : list Elem.

Hypothesis sortedA : sorted_unique elemsA.
Hypothesis sortedB : sorted_unique elemsB.
Hypothesis sizeA : vsize elemsA < 2 ^ 32.
Hypothesis sizeB : vsize elemsB < 2 ^ 32.

Lemma reachable_right_split (b : nat) :
  (b <= length elemsA)%nat ->
  reachable_right elemsA elemsB =
    take b elemsB ++ take (length elemsA - b) (drop b elemsB) /\
  drop b elemsB =
    take (length elemsA - b) (drop b elemsB) ++ drop (length elemsA) elemsB.
Proof.
  intros Hb. unfold reachable_right. split.
  - rewrite take_take_drop. f_equal. lia.
  - rewrite <- (take_drop (length elemsA - b) (drop b elemsB)) at 1.
    rewrite drop_drop. do 2 f_equal. lia.
Qed.

Lemma overlap_scan_log (fuel : nat) (s : scan V F) :
  overlap_scan fuel elemsA elemsB = Done s ->
  let right := reachable_right elemsA elemsB in
  writes_to OverlapLeft (wlog s) = val_ <$> shared_with right elemsA /\
  writes_to DiffLeft (wlog s) = val_ <$> absent_from right elemsA /\
  writes_to OverlapRight (wlog s) = val_ <$> shared_with elemsA right /\
  writes_to DiffRight (wlog s) =
    val_ <$> (absent_from elemsA right ++ drop (length elemsA) elemsB) /\
  overlap_qty_ (res s) = N.of_nat (length (shared_with right elemsA)).
Proof.
  intros H right. unfold overlap_scan, merge_loop in H.
  destruct (while_ fuel (merge_cond elemsA elemsB) (merge_body elemsA elemsB) scan0)
    as [s1| |] eqn:H1; try discriminate.
  cbn [obind] in H.
  destruct (while_ fuel (drainA_cond elemsA) (drainA_body elemsA) s1)
    as [s2| |] eqn:H2; try discriminate.
  cbn [obind] in H.
  apply (while_invariant _ _
           (fun t => scan_inv elemsA elemsB t /\ merge_inv elemsA elemsB t))
    in H1 as [[S1 M1] C1].
  2: { intros t t' [St Mt] Hc Hb. split.
       - eapply merge_body_inv; eassumption.
       - eapply merge_body_merge_inv; eassumption. }
  2: { split; [apply scan_inv_init | apply merge_inv_init]. }
  destruct S1 as (HA1 & HB1 & _).
  destruct M1 as (Hb & I1 & I2 & L1 & L2 & L3 & L4 & Q).
  apply (drainA_run elemsA sizeA) in H2 as (EA2 & EB2 & W2 & Q2 & _); [| exact HA1].
  apply (drainB_run elemsB sizeB) in H as (EB3 & EA3 & W3 & Q3 & _);
    [| rewrite EB2; exact HB1].
  rewrite EB2 in W3.
  set (a := N.to_nat (curA s1)) in *. set (b := N.to_nat (curB s1)) in *.
  assert (Hexit : a = length elemsA \/ b = length elemsA).
  { unfold merge_cond in C1. apply andb_false_iff in C1 as [C|C];
      apply N.ltb_ge in C; unfold vsize in *; lia. }
  (* the rest of the left list shares no id with the reachable right part *)
  assert (RA : shared_with right (drop a elemsA) = [] /\
               absent_from right (drop a elemsA) = drop a elemsA).
  { apply absent_from_all. intros e He (j & z & Hj & Hz)%id_elem_of.
    apply list_elem_of_lookup in He as [k Hk]. rewrite lookup_drop in Hk.
    unfold right, reachable_right in Hj. apply lookup_take_Some in Hj as [Hj Hjn].
    destruct Hexit as [Ea|Eb].
    - apply lookup_lt_Some in Hk. lia.
    - pose proof (I2 (a + k)%nat j e z ltac:(lia) ltac:(lia) Hk Hj). lia. }
  (* the reachable right elements not yet consumed share no id with the left list *)
  destruct (reachable_right_split b Hb) as [SR SD]. fold right in SR.
  set (mid := take (length elemsA - b) (drop b elemsB)) in *.
  assert (RB : shared_with elemsA mid = [] /\ absent_from elemsA mid = mid).
  { apply absent_from_all. intros e He (i & z & Hi & Hz)%id_elem_of.
    apply list_elem_of_lookup in He as [k Hk]. unfold mid in Hk.
    apply lookup_take_Some in Hk as [Hk Hkn]. rewrite lookup_drop in Hk.
    destruct Hexit as [Ea|Eb]; [| lia].
    pose proof (lookup_lt_Some _ _ _ Hi).
    pose proof (I1 i (b + k)%nat z e ltac:(lia) ltac:(lia) Hi Hk). lia. }
  destruct RA as [RA1 RA2]. destruct RB as [RB1 RB2].
  assert (SA : shared_with right elemsA = shared_with right (take a elemsA)).
  { rewrite <- (take_drop a elemsA) at 1.
    rewrite shared_with_app, RA1, app_nil_r. reflexivity. }
  assert (AA : absent_from right elemsA =
               absent_from right (take a elemsA) ++ drop a elemsA).
  { rewrite <- (take_drop a elemsA) at 1.
    rewrite absent_from_app, RA2. reflexivity. }
  assert (SB : shared_with elemsA right = shared_with elemsA (take b elemsB)).
  { rewrite SR, shared_with_app, RB1, app_nil_r. reflexivity. }
  assert (AB : absent_from elemsA right ++ drop (length elemsA) elemsB =
               absent_from elemsA (take b elemsB) ++ drop b elemsB).
  { rewrite SR, absent_from_app, RB2, SD, <- app_assoc. reflexivity. }
  rewrite SA, AA, SB, AB.
  rewrite W3, W2, !writes_to_app, !writes_to_writes_of. cbn [side_field_eqb].
  rewrite ?app_nil_r, L1, L2, L3, L4, !fmap_app.
  repeat split; try reflexivity.
  rewrite Q3, Q2, Q, L1, length_fmap. reflexivity.
Qed.

End ScanLog.

(** ** ComputeOverlapInfo on records sorted by id *)

Section SortedOverlapInfo.

Context {V F : Type} {AR : Arith V F}.

Abbreviation Elem := (SparseVectElem V).

Variable UnpackSparseElements : option buffer -> N -> outcome (list Elem).

Lemma ComputeOverlapInfo_sorted (fuel : nat) (objA objB : Object)
    (elemsA elemsB : list Elem) (r : OverlapInfo F) :
  sorted_unique elemsA -> sorted_unique elemsB ->
  UnpackSparseElements (data objA) (datalength objA) = Done elemsA ->
  UnpackSparseElements (data objB) (datalength objB) = Done elemsB ->
  ComputeOverlapInfo UnpackSparseElements fuel objA objB = Done r ->
  let right := reachable_right elemsA elemsB in
  overlap_qty_ r = N.of_nat (length (shared_with right elemsA)) /\
  overlap_sum_left_norm_ r =
    scaled_by (l2 elemsA) (accumulated (val_ <$> shared_with right elemsA)) /\
  diff_sum_left_norm_ r =
    scaled_by (l2 elemsA) (accumulated (val_ <$> absent_from right elemsA)) /\
  overlap_sum_right_norm_ r =
    scaled_by (l2 elemsB) (last_assigned (val_ <$> shared_with elemsA right)) /\
  diff_sum_right_norm_ r =
    scaled_by (l2 elemsB)
      (last_assigned (val_ <$> (absent_from elemsA right ++ drop (length elemsA) elemsB))).
Proof.
  intros HsA HsB HA HB H right.
  rewrite (ComputeOverlapInfo_decoded _ _ _ _ _ _ HA HB) in H.
  apply overlap_of_elems_Done in H as (HszA & HszB & s & Hs & ->).
  destruct (overlap_scan_Done elemsA elemsB HszA HszB fuel s Hs)
    as ((_ & _ & _ & _ & HdL & HoL & HdR & HoR & _) & _ & _).
  destruct (overlap_scan_log elemsA elemsB HsA HsB HszA HszB fuel s Hs)
    as (L1 & L2 & L3 & L4 & Q).
  fold right in L1, L2, L3, L4, Q.
  cbn [normalized overlap_qty_ overlap_sum_left_norm_ overlap_sum_right_norm_
       diff_sum_left_norm_ diff_sum_right_norm_].
  rewrite HdL, HoL, HdR, HoR, L1, L2, L3, L4, Q. repeat split; reflexivity.
Qed.


(** X2: when moreover the right list is not longer than the left one, the
    count is the number of ids the two records have in common (the left
    elements whose id occurs in the right record). *)
Theorem overlap_qty_is_common_id_count
    (fuel : nat) (objA objB : Object) (elemsA elemsB : list Elem) (r : OverlapInfo F) :
  sorted_unique elemsA -> sorted_unique elemsB ->
  (length elemsB <= length elemsA)%nat ->
  UnpackSparseElements (data objA) (datalength objA) = Done elemsA ->
  UnpackSparseElements (data objB) (datalength objB) = Done elemsB ->
  ComputeOverlapInfo UnpackSparseElements fuel objA objB = Done r ->
  overlap_qty_ r = N.of_nat (length (shared_with elemsB elemsA)).
Proof.
  intros HsA HsB Hlen HA HB H.
  destruct (ComputeOverlapInfo_sorted fuel objA objB elemsA elemsB r HsA HsB HA HB H)
    as (Q & _).
  unfold reachable_right in Q. rewrite take_ge in Q by exact Hlen. exact Q.
Qed.

(** X3: on records sorted by id, the two left statistics of every result
    are the sums, in list order and then normalized, of the left weights
    whose id occurs (overlap) or does not occur (diff) among the first
    [elemsA.size()] right elements, the left weights added after the merge
    loop included.  And there is such a result whenever the right list is
    at least as long as the left one and the loops are given the fuel for
    their iterations. *)
Theorem left_sums_split_by_reachable_right
    (fuel : nat) (objA objB : Object) (elemsA elemsB : list Elem) :
  sorted_unique elemsA -> sorted_unique elemsB ->
  UnpackSparseElements (data objA) (datalength objA) = Done elemsA ->
  UnpackSparseElements (data objB) (datalength objB) = Done elemsB ->
  (forall r : OverlapInfo F,
     ComputeOverlapInfo UnpackSparseElements fuel objA objB = Done r ->
     overlap_sum_left_norm_ r =
       scaled_by (l2 elemsA)
         (accumulated (val_ <$> shared_with (take (length elemsA) elemsB) elemsA)) /\
     diff_sum_left_norm_ r =
       scaled_by (l2 elemsA)
         (accumulated (val_ <$> absent_from (take (length elemsA) elemsB) elemsA))) /\
  (vsize elemsB < 2 ^ 32 -> vsize elemsA <= vsize elemsB ->
   (2 * length elemsA + length elemsB < fuel)%nat ->
   exists r, ComputeOverlapInfo UnpackSparseElements fuel objA objB = Done r).
Proof.
  intros HsA HsB HA HB. split.
  - intros r H.
    destruct (ComputeOverlapInfo_sorted fuel objA objB elemsA elemsB r HsA HsB HA HB H)
      as (_ & H1 & H2 & _).
    split; assumption.
  - intros HszB Hle Hfuel.
    apply (ComputeOverlapInfo_returns UnpackSparseElements fuel objA objB elemsA elemsB);
      assumption.
Qed.


End SortedOverlapInfo.

(** ** ComputeOverlapInfo: edge cases, termination, faults *)

Section OverlapInfoEdges.

Context {V F : Type} {AR : Arith V F}.

Abbreviation Elem := (SparseVectElem V).

Variable UnpackSparseElements : option buffer -> N -> outcome (list Elem).

Lemma l2norm_fuel_mono (fuel fuel' : nat) (elems : list Elem) (n : F) :
  l2norm fuel elems = Done n -> (fuel <= fuel')%nat -> l2norm fuel' elems = Done n.
Proof.
  unfold l2norm. intros H Hle.
  destruct (while_ fuel (norm_cond elems) (norm_body elems) (0, Fzero))
    as [s| |] eqn:Hs; try discriminate.
  rewrite (while_fuel_mono _ _ _ _ _ _ Hs Hle). exact H.
Qed.

Lemma overlap_of_elems_fuel_mono (fuel fuel' : nat) (elemsA elemsB : list Elem)
    (r : OverlapInfo F) :
  overlap_of_elems fuel elemsA elemsB = Done r -> (fuel <= fuel')%nat ->
  overlap_of_elems fuel' elemsA elemsB = Done r.
Proof.
  unfold overlap_of_elems. intros H Hle.
  destruct (l2norm fuel elemsA) as [nl| |] eqn:HA; try discriminate.
  destruct (l2norm fuel elemsB) as [nr| |] eqn:HB; try discriminate.
  cbn [obind] in H.
  destruct (overlap_scan fuel elemsA elemsB) as [s| |] eqn:HS; try discriminate.
  rewrite (l2norm_fuel_mono _ _ _ _ HA Hle), (l2norm_fuel_mono _ _ _ _ HB Hle).
  cbn [obind]. rewrite (overlap_scan_fuel_mono _ _ _ _ _ HS Hle). exact H.
Qed.

(** The merge loop on a list against itself: every iteration is a match. *)
Lemma merge_loop_self (fuel : nat) (elems : list Elem) :
  vsize elems < 2 ^ 32 -> (length elems < fuel)%nat ->
  exists s, merge_loop fuel elems elems = Done s /\
    curA s = vsize elems /\ curB s = vsize elems /\
    res s = self_res elems (length elems).
Proof.
  intros Hsz Hfuel. unfold merge_loop.
  destruct (while_total (merge_cond elems elems) (merge_body elems elems)
              (fun t => curA t = curB t /\ curA t <= vsize elems /\
                        res t = self_res elems (N.to_nat (curA t)))
              (fun t => N.to_nat (vsize elems - curA t)))
    with (fuel := fuel) (s := @scan0 V F AR) as (s & Hrun & (E & Hle & Hres) & Hc).
  - intros t (E & Hle & Hres) Hc.
    unfold merge_cond in Hc. apply andb_true_iff in Hc as [Hc _]. apply N.ltb_lt in Hc.
    destruct (at_in_bounds elems (curA t) Hc) as [x Hx].
    unfold merge_body. rewrite <- E, Hx. cbn [obind]. rewrite N.ltb_irrefl.
    eexists. split; [reflexivity |]. cbn [curA curB res].
    rewrite u32_small by lia. split; [| lia].
    split; [reflexivity |]. split; [lia |].
    rewrite Hres. unfold add_overlap, self_res.
    cbn [overlap_qty_ overlap_dotprod_norm_ overlap_sum_left_norm_
         overlap_sum_right_norm_ diff_sum_left_norm_ diff_sum_right_norm_].
    rewrite (take_succ_at _ _ _ Hx), foldl_snoc, fmap_app.
    cbn [fmap list_fmap]. rewrite accumulated_snoc, last_assigned_snoc.
    f_equal. lia.
  - split; [reflexivity |]. split; [apply N.le_0_l | reflexivity].
  - cbn [scan0 curA]. unfold vsize. lia.
  - exists s. split; [exact Hrun |].
    unfold merge_cond in Hc. rewrite <- E, andb_diag in Hc. apply N.ltb_ge in Hc.
    assert (Ec : curA s = vsize elems) by lia.
    split; [exact Ec |]. split; [congruence |].
    rewrite Hres, Ec. unfold vsize. rewrite Nat2N.id. reflexivity.
Qed.

(** X5: a record compared with itself (no order on the ids is needed): every
    element matches, so the count is the number of elements, both diff sums
    stay zero, the dot product is the sum of the squared weights (the square
    of the L2 norm before [sqrt]) and the left overlap sum is the sum of the
    weights, while the right overlap sum is the last weight alone; the two
    guarded normalization steps are then applied. *)
Theorem ComputeOverlapInfo_self
    (fuel : nat) (objA objB : Object) (elems : list Elem) :
  UnpackSparseElements (data objA) (datalength objA) = Done elems ->
  UnpackSparseElements (data objB) (datalength objB) = Done elems ->
  vsize elems < 2 ^ 32 -> (length elems < fuel)%nat ->
  ComputeOverlapInfo UnpackSparseElements fuel objA objB =
  Done (normalized (l2 elems) (l2 elems)
          (mkOverlapInfo (vsize elems)
             (foldl sumsq Fzero elems)
             (accumulated (val_ <$> elems))
             (last_assigned (val_ <$> elems))
             Fzero Fzero)).
Proof.
  intros HA HB Hsz Hfuel. rewrite (ComputeOverlapInfo_decoded _ _ _ _ _ _ HA HB).
  unfold overlap_of_elems. rewrite !l2norm_total by assumption. cbn [obind].
  destruct (merge_loop_self fuel elems Hsz Hfuel) as (s & Hs & EA & EB & Hres).
  unfold overlap_scan. rewrite Hs. cbn [obind].
  rewrite while_exit by (unfold drainA_cond; rewrite EA; apply N.ltb_irrefl).
  cbn [obind].
  rewrite while_exit by (unfold drainB_cond; rewrite EB; apply N.ltb_irrefl).
  cbn [obind]. rewrite normalize_Done, Hres. unfold self_res.
  rewrite firstn_all. reflexivity.
Qed.

(** X6: with an empty left record nothing is compared: the count and every
    statistic but [diff_sum_right_norm_] stay zero, and that one is the
    weight of the last right element (not the sum of the right weights),
    before the guarded normalization. *)
Theorem ComputeOverlapInfo_empty_left
    (fuel : nat) (objA objB : Object) (elemsB : list Elem) :
  UnpackSparseElements (data objA) (datalength objA) = Done [] ->
  UnpackSparseElements (data objB) (datalength objB) = Done elemsB ->
  vsize elemsB < 2 ^ 32 -> (length elemsB < fuel)%nat ->
  ComputeOverlapInfo UnpackSparseElements fuel objA objB =
  Done (normalized (l2 []) (l2 elemsB)
          (mkOverlapInfo 0 Fzero Fzero Fzero Fzero (last_assigned (val_ <$> elemsB)))).
Proof.
  intros HA HB Hsz Hfuel. rewrite (ComputeOverlapInfo_decoded _ _ _ _ _ _ HA HB).
  assert (Hsz0 : vsize (@nil Elem) < 2 ^ 32) by reflexivity.
  unfold overlap_of_elems.
  rewrite (l2norm_total fuel []) by (first [exact Hsz0 | cbn [length]; lia]).
  rewrite (l2norm_total fuel elemsB) by assumption. cbn [obind].
  destruct (overlap_scan_total [] elemsB fuel Hsz) as [s Hs];
    [apply N.le_0_l | cbn [length]; lia |].
  rewrite Hs. cbn [obind]. rewrite normalize_Done. do 2 f_equal.
  destruct (overlap_scan_Done [] elemsB Hsz0 Hsz fuel s Hs)
    as ((_ & _ & _ & _ & _ & _ & HdR & _) & _ & _).
  unfold overlap_scan, merge_loop in Hs.
  rewrite (while_exit (merge_cond [] elemsB)) in Hs by reflexivity. cbn [obind] in Hs.
  rewrite (while_exit (drainA_cond [])) in Hs by reflexivity. cbn [obind] in Hs.
  apply (drainB_run elemsB Hsz) in Hs as (_ & _ & W & Q & D & OL & OR & DL);
    [| apply N.le_0_l].
  cbn [scan0 curB wlog res app] in W, Q, D, OL, OR, DL. cbn [N.to_nat drop] in W.
  rewrite W, writes_to_writes_of in HdR. cbn [side_field_eqb] in HdR.
  destruct (res s). cbn in *. subst. reflexivity.
Qed.

(** X7: with an empty right record and a non-empty left one, the first
    iteration of the merge loop reads [elemsB[0]] of the empty vector. *)
Theorem ComputeOverlapInfo_empty_right
    (fuel : nat) (objA objB : Object) (elemsA : list Elem) :
  UnpackSparseElements (data objA) (datalength objA) = Done elemsA ->
  UnpackSparseElements (data objB) (datalength objB) = Done [] ->
  elemsA <> [] -> vsize elemsA < 2 ^ 32 -> (length elemsA < fuel)%nat ->
  ComputeOverlapInfo UnpackSparseElements fuel objA objB = Fault OutOfBounds.
Proof.
  intros HA HB Hne Hsz Hfuel. rewrite (ComputeOverlapInfo_decoded _ _ _ _ _ _ HA HB).
  unfold overlap_of_elems.
  rewrite (l2norm_total fuel elemsA) by assumption.
  rewrite (l2norm_total fuel []) by (first [reflexivity | cbn [length]; lia]).
  cbn [obind]. unfold overlap_scan, merge_loop. rewrite while_unfold.
  destruct elemsA as [|x elemsA]; [congruence |].
  destruct fuel as [|fuel]; [lia |]. reflexivity.
Qed.

(** X8: when the right record is at least as long as the left one and has
    fewer than 2^32 elements, ComputeOverlapInfo returns: its five loops
    end, and no read leaves a vector. *)
Theorem ComputeOverlapInfo_terminates
    (objA objB : Object) (elemsA elemsB : list Elem) :
  UnpackSparseElements (data objA) (datalength objA) = Done elemsA ->
  UnpackSparseElements (data objB) (datalength objB) = Done elemsB ->
  vsize elemsB < 2 ^ 32 -> vsize elemsA <= vsize elemsB ->
  exists r, forall fuel, (2 * length elemsA + length elemsB < fuel)%nat ->
    ComputeOverlapInfo UnpackSparseElements fuel objA objB = Done r.
Proof.
  intros HA HB Hsz Hle.
  destruct (overlap_of_elems_total elemsA elemsB
              (S (2 * length elemsA + length elemsB)) Hsz Hle) as [r Hr]; [lia |].
  exists r. intros fuel Hfuel. rewrite (ComputeOverlapInfo_decoded _ _ _ _ _ _ HA HB).
  apply (overlap_of_elems_fuel_mono _ _ _ _ _ Hr). lia.
Qed.

(** X9: ComputeOverlapInfo returns only on records of fewer than 2^32
    elements: its cursors are 32-bit, and with more elements the first
    norm loop never reaches [size()]. *)
Theorem ComputeOverlapInfo_returns_below_2_32
    (fuel : nat) (objA objB : Object) (elemsA elemsB : list Elem) (r : OverlapInfo F) :
  UnpackSparseElements (data objA) (datalength objA) = Done elemsA ->
  UnpackSparseElements (data objB) (datalength objB) = Done elemsB ->
  ComputeOverlapInfo UnpackSparseElements fuel objA objB = Done r ->
  vsize elemsA < 2 ^ 32 /\ vsize elemsB < 2 ^ 32.
Proof.
  intros HA HB H. rewrite (ComputeOverlapInfo_decoded _ _ _ _ _ _ HA HB) in H.
  apply overlap_of_elems_Done in H as (H1 & H2 & _). split; assumption.
Qed.

(** X10: the only ways ComputeOverlapInfo fails: the decoder fails on the
    first record, or on the second, or the merge loop reads past the end
    of a right list that is shorter than the left one. *)
Theorem ComputeOverlapInfo_faults
    (fuel : nat) (objA objB : Object) (e : fault) :
  ComputeOverlapInfo UnpackSparseElements fuel objA objB = Fault e ->
  UnpackSparseElements (data objA) (datalength objA) = Fault e \/
  (exists elemsA,
     UnpackSparseElements (data objA) (datalength objA) = Done elemsA /\
     UnpackSparseElements (data objB) (datalength objB) = Fault e) \/
  (exists elemsA elemsB,
     UnpackSparseElements (data objA) (datalength objA) = Done elemsA /\
     UnpackSparseElements (data objB) (datalength objB) = Done elemsB /\
     e = OutOfBounds /\ vsize elemsB < vsize elemsA).
Proof.
  unfold ComputeOverlapInfo. intros H.
  destruct (UnpackSparseElements (data objA) (datalength objA)) as [elemsA|eA|];
    cbn [obind] in H; [| left; congruence | discriminate].
  destruct (UnpackSparseElements (data objB) (datalength objB)) as [elemsB|eB|];
    cbn [obind] in H; [| right; left; exists elemsA; split; [reflexivity | congruence]
                       | discriminate].
  right. right. exists elemsA, elemsB.
  split; [reflexivity |]. split; [reflexivity |].
  pose proof (overlap_of_elems_fault elemsA elemsB fuel e H) as ->.
  split; [reflexivity |].
  destruct (N.lt_ge_cases (vsize elemsB) (vsize elemsA)) as [Hlt|Hge]; [exact Hlt |].
  exfalso. revert H. unfold overlap_of_elems.
  destruct (l2norm fuel elemsA) as [nl|e1|] eqn:HA; cbn [obind];
    [| intros _; eapply l2norm_no_fault; eassumption | discriminate].
  destruct (l2norm fuel elemsB) as [nr|e2|] eqn:HB; cbn [obind];
    [| intros _; eapply l2norm_no_fault; eassumption | discriminate].
  destruct (overlap_scan fuel elemsA elemsB) as [s|e3|] eqn:HS; cbn [obind];
    [rewrite normalize_Done; discriminate | | discriminate].
  intros [= ->]. revert HS. unfold overlap_scan.
  destruct (merge_loop fuel elemsA elemsB) as [s1|e1|] eqn:H1; cbn [obind];
    [| intros [= ->]; eapply merge_loop_in_bounds; eassumption | discriminate].
  destruct (while_ fuel (drainA_cond elemsA) (drainA_body elemsA) s1)
    as [s2|e2|] eqn:H2; cbn [obind];
    [| intros [= ->]; revert H2;
       apply (while_no_fault _ _ (fun _ => True)); [auto | | exact I];
       intros s _ Hc Hb; destruct (drainA_body_safe elemsA s Hc) as [s' Hs']; congruence
     | discriminate].
  apply (while_no_fault _ _ (fun _ => True)); [auto | | exact I].
  intros s _ Hc Hb. destruct (drainB_body_safe elemsB s Hc) as [s' Hs']. congruence.
Qed.

End OverlapInfoEdges.

(** ** The count against the right record; GetElemQty *)

Section RightCount.

Context {V F : Type} {AR : Arith V F}.

Abbreviation Elem := (SparseVectElem V).

Variable UnpackSparseElements : option buffer -> N -> outcome (list Elem).

Lemma merge_body_qty_right (elemsA elemsB : list Elem) (s s' : scan V F) :
  vsize elemsB < 2 ^ 32 ->
  merge_body elemsA elemsB s = Done s' ->
  overlap_qty_ (res s) <= curB s -> overlap_qty_ (res s') <= curB s'.
Proof.
  intros Hsz Hb Hq. unfold merge_body in Hb.
  destruct (at_ elemsA (curA s)) as [x| |]; try discriminate.
  destruct (at_ elemsB (curB s)) as [y| |] eqn:Hy; try discriminate.
  pose proof (at_lt _ _ _ Hy) as Hlt. cbn [obind] in Hb.
  destruct (id_ x <? id_ y); [| destruct (id_ y <? id_ x)]; injection Hb as <-;
    cbn [res curB add_diff_sum_left set_diff_sum_right add_overlap overlap_qty_];
    rewrite ?u32_small by lia; lia.
Qed.

(** X11: the count ComputeOverlapInfo returns is at most the number of
    elements GetElemQty reports for the right record. *)
Theorem overlap_qty_at_most_right_GetElemQty
    (fuel : nat) (objA objB : Object) (n : N) (r : OverlapInfo F) :
  GetElemQty UnpackSparseElements objB = Done n ->
  ComputeOverlapInfo UnpackSparseElements fuel objA objB = Done r ->
  overlap_qty_ r <= n.
Proof.
  unfold GetElemQty, ComputeOverlapInfo. intros Hn H.
  destruct (UnpackSparseElements (data objA) (datalength objA)) as [elemsA| |];
    try discriminate.
  destruct (UnpackSparseElements (data objB) (datalength objB)) as [elemsB| |];
    try discriminate.
  cbn [obind] in Hn, H. injection Hn as <-.
  apply overlap_of_elems_Done in H as (HszA & HszB & s & Hs & ->).
  cbn [normalized overlap_qty_].
  unfold overlap_scan, merge_loop in Hs.
  destruct (while_ fuel (merge_cond elemsA elemsB) (merge_body elemsA elemsB) scan0)
    as [s1| |] eqn:H1; try discriminate.
  cbn [obind] in Hs.
  destruct (while_ fuel (drainA_cond elemsA) (drainA_body elemsA) s1)
    as [s2| |] eqn:H2; try discriminate.
  cbn [obind] in Hs.
  apply (while_invariant _ _
           (fun t => scan_inv elemsA elemsB t /\ overlap_qty_ (res t) <= curB t))
    in H1 as [[S1 Q1] _].
  2: { intros t t' [St Qt] _ Hb. split.
       - eapply merge_body_inv; eassumption.
       - eapply merge_body_qty_right; eassumption. }
  2: { split; [apply scan_inv_init | apply N.le_0_l]. }
  destruct S1 as (HA1 & HB1 & _).
  apply (drainA_run elemsA HszA) in H2 as (_ & EB2 & _ & Q2 & _); [| exact HA1].
  apply (drainB_run elemsB HszB) in Hs as (EB3 & _ & _ & Q3 & _);
    [| rewrite EB2; exact HB1].
  lia.
Qed.

End RightCount.

(** ** CreateDenseVectFromObj: no slots, no collisions *)

Section DenseEdges.

Context {V F : Type} {AR : Arith V F}.

Abbreviation Elem := (SparseVectElem V).

Variable UnpackSparseElements : option buffer -> N -> outcome (list Elem).
Variable indexHash : N -> N.

(** X12: asked for zero slots, CreateDenseVectFromObj leaves the array as
    it is when the record is empty, and computes [hash % 0] on the first
    element otherwise. *)
Theorem CreateDenseVectFromObj_zero_slots
    (obj : Object) (pVect : list V) (target : list Elem) :
  UnpackSparseElements (data obj) (datalength obj) = Done target ->
  CreateDenseVectFromObj UnpackSparseElements indexHash obj pVect 0 =
  match target with
  | [] => Done pVect
  | _ :: _ => Fault DivByZero
  end.
Proof.
  intros Hdec. unfold CreateDenseVectFromObj, fill.
  cbn [N.ltb N.compare]. replace (vsize pVect <? 0) with false
    by (symmetry; apply N.ltb_ge, N.le_0_l).
  cbn [obind N.to_nat replicate drop app]. rewrite Hdec. cbn [obind].
  destruct target; reflexivity.
Qed.

Lemma filter_slot_unique (nElem : N) (target : list Elem) (e : Elem) :
  NoDup (slot_of indexHash nElem <$> target) -> e ∈ target ->
  filter (fun x => indexHash (id_ x) mod nElem = slot_of indexHash nElem e) target = [e].
Proof.
  induction target as [|x target IH]; intros Hnd He; [inversion He |].
  rewrite fmap_cons in Hnd. apply NoDup_cons in Hnd as [Hx Hnd].
  apply elem_of_cons in He as [->|He].
  - rewrite filter_cons_True by reflexivity. f_equal.
    apply filter_none. intros y Hy Hslot. apply Hx.
    apply list_elem_of_fmap. exists y. split; [symmetry; exact Hslot | exact Hy].
  - rewrite filter_cons_False; [apply IH; assumption |].
    intros Hslot. apply Hx. apply list_elem_of_fmap. exists e. split; assumption.
Qed.

(** X13: when no two elements of the record hash to the same slot, the
    projection loses nothing: the slot of each element holds zero plus that
    element's weight. *)
Theorem dense_slot_holds_weight_without_collisions
    (obj : Object) (pVect : list V) (nElem : N) (target : list Elem) :
  UnpackSparseElements (data obj) (datalength obj) = Done target ->
  0 < nElem -> nElem <= vsize pVect ->
  NoDup (slot_of indexHash nElem <$> target) ->
  exists out,
    CreateDenseVectFromObj UnpackSparseElements indexHash obj pVect nElem = Done out /\
    forall e, e ∈ target ->
      out !! N.to_nat (slot_of indexHash nElem e) = Some (Vadd Vzero (val_ e)).
Proof.
  intros Hdec Hpos Hsz Hnd. unfold CreateDenseVectFromObj, fill.
  destruct (vsize pVect <? nElem) eqn:E; [apply N.ltb_lt in E; lia |].
  cbn [obind]. rewrite Hdec. cbn [obind].
  set (pv := replicate (N.to_nat nElem) Vzero ++ drop (N.to_nat nElem) pVect).
  destruct (for_each_dense indexHash nElem Hpos target pv) as (out & -> & _ & Hout).
  { unfold pv, vsize in *. rewrite length_app, length_replicate, length_drop. lia. }
  exists out. split; [reflexivity |]. intros e He. rewrite Hout.
  assert (Hlt : slot_of indexHash nElem e < nElem) by (apply N.mod_lt; lia).
  unfold pv. rewrite lookup_app_l by (rewrite length_replicate; lia).
  rewrite lookup_replicate_2 by lia. cbn [fmap option_fmap option_map].
  unfold hits. rewrite (filter_slot_unique nElem target e Hnd He). reflexivity.
Qed.

End DenseEdges.

(** ** A right record shorter than the left one *)

Section LoopsFuel.

Context {S : Type} (cond : S -> bool) (body : S -> outcome S).

(** With a measure that the body decreases, fuel above the measure is not
    used up. *)
Lemma while_fueled (I : S -> Prop) (m : S -> nat) :
  (forall s, I s -> cond s = true -> body s <> OutOfFuel) ->
  (forall s s', I s -> cond s = true -> body s = Done s' -> I s' /\ (m s' < m s)%nat) ->
  forall fuel s, I s -> (m s < fuel)%nat -> while_ fuel cond body s <> OutOfFuel.
Proof.
  intros Hf Hstep. induction fuel as [|fuel IH]; intros s HI Hm; [lia |].
  rewrite while_unfold. destruct (cond s) eqn:Hc; [| discriminate].
  destruct (body s) as [s1| |] eqn:Hb; cbn [obind]; [| discriminate |].
  - destruct (Hstep s s1 HI Hc Hb) as [HI1 Hlt]. apply IH; [exact HI1 | lia].
  - exfalso. exact (Hf s HI Hc Hb).
Qed.

End LoopsFuel.

Section ShorterRight.

Context {V F : Type} {AR : Arith V F}.

Abbreviation Elem := (SparseVectElem V).

Variable UnpackSparseElements : option buffer -> N -> outcome (list Elem).

Variables elemsA elemsB : list Elem.

Hypothesis sortedA : sorted_unique elemsA.
Hypothesis sortedB : sorted_unique elemsB.
Hypothesis sizeA : vsize elemsA < 2 ^ 32.
Hypothesis shorter : (length elemsB < length elemsA)%nat.

Lemma sizeB_of_shorter : vsize elemsB < 2 ^ 32.
Proof. clear sortedA sortedB. unfold vsize in *. lia. Qed.

Lemma merge_body_left_covered (s s' : scan V F) :
  scan_inv elemsA elemsB s -> left_covered elemsA elemsB s ->
  merge_body elemsA elemsB s = Done s' -> left_covered elemsA elemsB s'.
Proof.
  clear sortedA sortedB shorter.
  intros Hinv Hcov Hb. unfold merge_body in Hb.
  destruct (at_ elemsA (curA s)) as [x| |] eqn:Hx; try discriminate.
  destruct (at_ elemsB (curB s)) as [y| |] eqn:Hy; try discriminate.
  cbn [obind] in Hb. pose proof (at_lt _ _ _ Hx) as Hlt.
  apply at_Done in Hx, Hy.
  assert (Hnew : forall i x0, (i < N.to_nat (curA s + 1))%nat -> elemsA !! i = Some x0 ->
                   id_ x <= id_ y ->
                   exists j y0, elemsB !! j = Some y0 /\ id_ x0 <= id_ y0).
  { intros i x0 Hi Hx0 Hxy. destruct (decide (i = N.to_nat (curA s))) as [->|Hne].
    - rewrite Hx in Hx0. injection Hx0 as <-. eauto.
    - apply (Hcov i x0); [lia | exact Hx0]. }
  destruct (id_ x <? id_ y) eqn:Exy; [| destruct (id_ y <? id_ x) eqn:Eyx];
    injection Hb as <-; unfold left_covered; cbn [curA]; rewrite ?u32_small by lia.
  - apply N.ltb_lt in Exy. intros i x0 Hi Hx0. apply (Hnew i x0 Hi Hx0). lia.
  - exact Hcov.
  - apply N.ltb_ge in Exy, Eyx. intros i x0 Hi Hx0. apply (Hnew i x0 Hi Hx0). lia.
Qed.

Lemma merge_all_inv_step (s s' : scan V F) :
  merge_all_inv elemsA elemsB s -> merge_cond elemsA elemsB s = true ->
  merge_body elemsA elemsB s = Done s' ->
  merge_all_inv elemsA elemsB s' /\
  (merge_measure elemsA s' < merge_measure elemsA s)%nat.
Proof.
  intros (HS & HM & HC) Hc Hb. pose proof sizeB_of_shorter as sizeB.
  destruct (merge_body_inv elemsA elemsB sizeA sizeB s s' HS Hb) as [HS' Hcur].
  split.
  - split; [exact HS' |]. split.
    + exact (merge_body_merge_inv elemsA elemsB sortedA sortedB sizeA sizeB s s' HM Hc Hb).
    + exact (merge_body_left_covered s s' HS HC Hb).
  - unfold merge_cond in Hc. apply andb_true_iff in Hc as [HcA HcB].
    apply N.ltb_lt in HcA, HcB. unfold merge_measure. lia.
Qed.

Lemma merge_all_inv_init : merge_all_inv elemsA elemsB scan0.
Proof.
  clear sortedA sortedB.
  split; [apply scan_inv_init |]. split; [apply merge_inv_init |].
  intros i x Hi. cbn in Hi. lia.
Qed.

Lemma merge_body_fueled (s : scan V F) : merge_body elemsA elemsB s <> OutOfFuel.
Proof.
  clear sortedA sortedB sizeA shorter.
  unfold merge_body.
  destruct (at_ elemsA (curA s)) as [x| |] eqn:Hx; cbn [obind];
    [| discriminate | exfalso; eapply at_fueled; eassumption].
  destruct (at_ elemsB (curB s)) as [y| |] eqn:Hy; cbn [obind];
    [| discriminate | exfalso; eapply at_fueled; eassumption].
  destruct (id_ x <? id_ y); [| destruct (id_ y <? id_ x)]; discriminate.
Qed.

Lemma merge_loop_fault (fuel : nat) (e : fault) :
  merge_loop fuel elemsA elemsB = Fault e -> e = OutOfBounds.
Proof.
  clear sortedA sortedB sizeA shorter.
  destruct e; try reflexivity; intros H; exfalso; revert H; unfold merge_loop;
    (apply (while_no_fault _ _ (fun _ => True)); [auto | | exact I]);
    intros s _ Hc Hb; apply (merge_body_fault elemsA elemsB s _ Hc) in Hb as [? _];
    discriminate.
Qed.

(** X14: a right record shorter than the left one whose largest id is
    below the left record's largest id (or which is empty) is exhausted
    first, and the next iteration of the merge loop reads past its end. *)
Theorem ComputeOverlapInfo_shorter_right_faults
    (fuel : nat) (objA objB : Object) (x : Elem) :
  UnpackSparseElements (data objA) (datalength objA) = Done elemsA ->
  UnpackSparseElements (data objB) (datalength objB) = Done elemsB ->
  last elemsA = Some x ->
  (forall y, last elemsB = Some y -> id_ y < id_ x) ->
  (2 * length elemsA < fuel)%nat ->
  ComputeOverlapInfo UnpackSparseElements fuel objA objB = Fault OutOfBounds.
Proof.
  intros HA HB Hx Hlast Hfuel. pose proof sizeB_of_shorter as sizeB.
  rewrite (ComputeOverlapInfo_decoded _ _ _ _ _ _ HA HB). unfold overlap_of_elems.
  rewrite (l2norm_total fuel elemsA) by (first [assumption | lia]).
  rewrite (l2norm_total fuel elemsB) by (first [assumption | lia]).
  cbn [obind]. unfold overlap_scan.
  destruct (merge_loop fuel elemsA elemsB) as [s1|e|] eqn:H1; cbn [obind].
  - exfalso. unfold merge_loop in H1.
    apply (while_invariant _ _ (merge_all_inv elemsA elemsB)) in H1 as [(HS & HM & HC) Hc];
      [| intros t t' Ht Hct Hb; eapply merge_all_inv_step; eassumption
       | apply merge_all_inv_init].
    destruct HS as (HA1 & HB1 & _).
    unfold merge_cond in Hc.
    assert (Ea : N.to_nat (curA s1) = length elemsA).
    { apply andb_false_iff in Hc as [C|C]; apply N.ltb_ge in C; unfold vsize in *; lia. }
    rewrite last_lookup in Hx.
    destruct (HC (pred (length elemsA)) x ltac:(lia) Hx) as (j & y & Hy & Hxy).
    destruct (last elemsB) as [z|] eqn:Hz.
    + pose proof (Hlast z eq_refl) as Hzx. rewrite last_lookup in Hz.
      pose proof (lookup_lt_Some _ _ _ Hy).
      pose proof (sorted_le elemsB j (pred (length elemsB)) y z sortedB ltac:(lia) Hy Hz).
      lia.
    + apply last_None in Hz. subst elemsB. discriminate.
  - apply merge_loop_fault in H1 as ->. reflexivity.
  - exfalso. revert H1. unfold merge_loop.
    apply (while_fueled _ _ (merge_all_inv elemsA elemsB) (merge_measure elemsA)).
    + intros s _ _. apply merge_body_fueled.
    + intros t t' Ht Hct Hb. eapply merge_all_inv_step; eassumption.
    + apply merge_all_inv_init.
    + unfold merge_measure. cbn [scan0 curA curB]. unfold vsize. lia.
Qed.

Lemma drains_total (fuel : nat) (s1 : scan V F) :
  scan_inv elemsA elemsB s1 ->
  (length elemsA < fuel)%nat ->
  exists s3,
    (let* s2 := while_ fuel (drainA_cond elemsA) (drainA_body elemsA) s1 in
     while_ fuel (drainB_cond elemsB) (drainB_body elemsB) s2) = Done s3.
Proof.
  clear sortedA sortedB.
  intros I1 Hfuel. pose proof sizeB_of_shorter as sizeB.
  assert (HdrainA : forall s, scan_inv elemsA elemsB s ->
            drainA_cond elemsA s = true ->
            exists s', drainA_body elemsA s = Done s' /\
                       scan_inv elemsA elemsB s' /\
                       (N.to_nat (vsize elemsA - curA s') <
                        N.to_nat (vsize elemsA - curA s))%nat).
  { intros s Hinv Hc. destruct (drainA_body_safe elemsA s Hc) as [s' Hb].
    exists s'. split; [assumption |].
    destruct (drainA_body_inv elemsA elemsB sizeA sizeB s s' Hinv Hb) as (Hinv' & EA & EB).
    split; [assumption |]. unfold drainA_cond in Hc. apply N.ltb_lt in Hc. lia. }
  destruct (while_total _ _ _ _ HdrainA fuel s1) as (s2 & -> & I2 & _);
    [assumption | unfold vsize; lia |].
  cbn [obind].
  assert (HdrainB : forall s, scan_inv elemsA elemsB s ->
            drainB_cond elemsB s = true ->
            exists s', drainB_body elemsB s = Done s' /\
                       scan_inv elemsA elemsB s' /\
                       (N.to_nat (vsize elemsB - curB s') <
                        N.to_nat (vsize elemsB - curB s))%nat).
  { intros s Hinv Hc. destruct (drainB_body_safe elemsB s Hc) as [s' Hb].
    exists s'. split; [assumption |].
    destruct (drainB_body_inv elemsA elemsB sizeA sizeB s s' Hinv Hb) as (Hinv' & EA & EB).
    split; [assumption |]. unfold drainB_cond in Hc. apply N.ltb_lt in Hc. lia. }
  destruct (while_total _ _ _ _ HdrainB fuel s2) as (s3 & -> & I3 & _);
    [assumption | unfold vsize; lia |].
  exists s3. reflexivity.
Qed.

(** X15: a right record shorter than the left one is still safe when its
    largest id is at least the left record's largest id: the left list is
    then exhausted first, no read leaves a vector and the call returns. *)
Theorem ComputeOverlapInfo_shorter_right_returns
    (fuel : nat) (objA objB : Object) (x y : Elem) :
  UnpackSparseElements (data objA) (datalength objA) = Done elemsA ->
  UnpackSparseElements (data objB) (datalength objB) = Done elemsB ->
  last elemsA = Some x -> last elemsB = Some y -> id_ x <= id_ y ->
  (2 * length elemsA < fuel)%nat ->
  exists r, ComputeOverlapInfo UnpackSparseElements fuel objA objB = Done r.
Proof.
  intros HA HB Hx Hy Hxy Hfuel. pose proof sizeB_of_shorter as sizeB.
  rewrite (ComputeOverlapInfo_decoded _ _ _ _ _ _ HA HB). unfold overlap_of_elems.
  rewrite (l2norm_total fuel elemsA) by (first [assumption | lia]).
  rewrite (l2norm_total fuel elemsB) by (first [assumption | lia]).
  cbn [obind]. unfold overlap_scan, merge_loop.
  rewrite last_lookup in Hx, Hy.
  assert (Hstep : forall s, merge_all_inv elemsA elemsB s ->
            merge_cond elemsA elemsB s = true ->
            exists s', merge_body elemsA elemsB s = Done s' /\
                       merge_all_inv elemsA elemsB s' /\
                       (merge_measure elemsA s' < merge_measure elemsA s)%nat).
  { intros s Hinv Hc.
    destruct (merge_body elemsA elemsB s) as [s'|e|] eqn:Hb.
    - exists s'. split; [reflexivity |]. eapply merge_all_inv_step; eassumption.
    - exfalso. apply (merge_body_fault elemsA elemsB s e Hc) in Hb as [_ Hge].
      destruct Hinv as ((_ & HB1 & _) & (_ & _ & I2 & _) & _).
      unfold merge_cond in Hc. apply andb_true_iff in Hc as [HcA _].
      apply N.ltb_lt in HcA.
      destruct (at_in_bounds elemsA (curA s) HcA) as [xa Hxa]. apply at_Done in Hxa.
      pose proof (lookup_lt_Some _ _ _ Hy) as Hylen.
      pose proof (I2 (N.to_nat (curA s)) (pred (length elemsB)) xa y
                    ltac:(unfold vsize in *; lia) (Nat.le_refl _) Hxa Hy).
      pose proof (sorted_le elemsA (N.to_nat (curA s)) (pred (length elemsA)) xa x
                    sortedA ltac:(unfold vsize in *; lia) Hxa Hx).
      lia.
    - exfalso. eapply merge_body_fueled. exact Hb. }
  destruct (while_total _ _ _ _ Hstep fuel scan0) as (s1 & -> & (HS & _) & _);
    [apply merge_all_inv_init
    | unfold merge_measure; cbn [scan0 curA curB]; unfold vsize; lia |].
  cbn [obind].
  destruct (drains_total fuel s1 HS) as [s3 Hs3]; [lia |].
  rewrite Hs3. cbn [obind]. rewrite normalize_Done. eexists. reflexivity.
Qed.

End ShorterRight.

(** ** The further statements on concrete records *)

Abbreviation unpackZ := (UnpackSparseElements_layout (V := Z)).


Lemma overlap_qty_is_common_id_count_witness :
  exists r,
    ComputeOverlapInfo unpackZ 10 (object_of vecA) (object_of vecB) = Done r /\
    overlap_qty_ r = N.of_nat (length (shared_with (elems_of vecB) (elems_of vecA))).
Proof.
  eexists. split; [vm_compute; reflexivity |].
  apply (overlap_qty_is_common_id_count unpackZ 10 (object_of vecA) (object_of vecB));
    first [vm_compute; reflexivity | cbn; lia].
Defined.

(** Left ids 1, 2, 5, 50, 70 with weights 1, 2, 4, 6, 8 against right ids
    2, 3, 4, 5, 6, 70, in rational arithmetic: ids 2 and 5 occur among the
    first five right ids; id 1 does not and is added by the merge loop,
    ids 50 and 70 do not (the right id 70 is the sixth) and are added by
    the loop after it.  With the left norm 11 the sums are (2 + 4) / 11
    and (1 + 6 + 8) / 11. *)
Lemma left_sums_split_by_reachable_right_witness :
  exists r,
    ComputeOverlapInfo (AR := ArithZQ) unpackZ 20 (object_of vecP) (object_of vecQ) =
      Done r /\
    overlap_sum_left_norm_ r = QArith_base.Qmake 6 11 /\
    diff_sum_left_norm_ r = QArith_base.Qmake 15 11.
Proof.
  destruct (left_sums_split_by_reachable_right (AR := ArithZQ) unpackZ 20
              (object_of vecP) (object_of vecQ) (elems_of vecP) (elems_of vecQ))
    as [Hres Hret];
    [vm_compute; reflexivity | vm_compute; reflexivity
     | vm_compute; reflexivity | vm_compute; reflexivity |].
  destruct Hret as [r Hr]; [by vm_compute | by vm_compute | cbn; lia |].
  destruct (Hres r Hr) as [HoL HdL].
  exists r. split; [exact Hr |].
  rewrite HoL, HdL. split; reflexivity.
Defined.


Lemma ComputeOverlapInfo_self_witness :
  ComputeOverlapInfo unpackZ 10 (object_of vecA) (object_of vecA) =
  Done (normalized (l2 (elems_of vecA)) (l2 (elems_of vecA))
          (mkOverlapInfo 2 13%Z 5%Z 3%Z 0%Z 0%Z)).
Proof.
  rewrite (ComputeOverlapInfo_self unpackZ 10 (object_of vecA) (object_of vecA)
             (elems_of vecA)) by (first [vm_compute; reflexivity | cbn; lia]).
  reflexivity.
Defined.

Lemma ComputeOverlapInfo_empty_left_witness :
  ComputeOverlapInfo unpackZ 10 (object_of []) (object_of vecB) =
  Done (normalized (l2 []) (l2 (elems_of vecB))
          (mkOverlapInfo 0 0%Z 0%Z 0%Z 0%Z 1%Z)).
Proof.
  rewrite (ComputeOverlapInfo_empty_left unpackZ 10 (object_of []) (object_of vecB)
             (elems_of vecB)) by (first [vm_compute; reflexivity | cbn; lia]).
  reflexivity.
Defined.

Lemma ComputeOverlapInfo_empty_right_witness :
  ComputeOverlapInfo unpackZ 10 (object_of vecA) (object_of []) = Fault OutOfBounds.
Proof.
  apply (ComputeOverlapInfo_empty_right unpackZ 10 (object_of vecA) (object_of [])
           (elems_of vecA)); first [vm_compute; reflexivity | discriminate | cbn; lia].
Defined.

Lemma ComputeOverlapInfo_terminates_witness :
  exists r, forall fuel, (6 < fuel)%nat ->
    ComputeOverlapInfo unpackZ fuel (object_of vecA) (object_of vecB) = Done r.
Proof.
  apply (ComputeOverlapInfo_terminates unpackZ (object_of vecA) (object_of vecB)
           (elems_of vecA) (elems_of vecB)); first [vm_compute; reflexivity | by vm_compute].
Defined.

Lemma ComputeOverlapInfo_returns_below_2_32_witness :
  exists r,
    ComputeOverlapInfo unpackZ 10 (object_of vecA) (object_of vecB) = Done r /\
    vsize (elems_of vecA) < 2 ^ 32 /\ vsize (elems_of vecB) < 2 ^ 32.
Proof.
  eexists. split; [vm_compute; reflexivity |].
  eapply (ComputeOverlapInfo_returns_below_2_32 unpackZ 10 (object_of vecA) (object_of vecB));
    vm_compute; reflexivity.
Defined.

Lemma ComputeOverlapInfo_faults_witness :
  ComputeOverlapInfo unpackZ 10 (object_of vecS) (object_of vecT) = Fault OutOfBounds /\
  (unpackZ (data (object_of vecS)) (datalength (object_of vecS)) = Fault OutOfBounds \/
   (exists elemsA,
      unpackZ (data (object_of vecS)) (datalength (object_of vecS)) = Done elemsA /\
      unpackZ (data (object_of vecT)) (datalength (object_of vecT)) = Fault OutOfBounds) \/
   (exists elemsA elemsB,
      unpackZ (data (object_of vecS)) (datalength (object_of vecS)) = Done elemsA /\
      unpackZ (data (object_of vecT)) (datalength (object_of vecT)) = Done elemsB /\
      OutOfBounds = OutOfBounds /\ vsize elemsB < vsize elemsA)).
Proof.
  split; [vm_compute; reflexivity |].
  apply (ComputeOverlapInfo_faults unpackZ 10 (object_of vecS) (object_of vecT)).
  vm_compute. reflexivity.
Defined.

Lemma overlap_qty_at_most_right_GetElemQty_witness :
  exists r,
    GetElemQty unpackZ (object_of vecB) = Done 2 /\
    ComputeOverlapInfo unpackZ 10 (object_of vecA) (object_of vecB) = Done r /\
    overlap_qty_ r <= 2.
Proof.
  eexists. split; [vm_compute; reflexivity |]. split; [vm_compute; reflexivity |].
  apply (overlap_qty_at_most_right_GetElemQty unpackZ 10 (object_of vecA) (object_of vecB));
    vm_compute; reflexivity.
Defined.

Lemma CreateDenseVectFromObj_zero_slots_witness :
  CreateDenseVectFromObj unpackZ (fun x => x) (object_of vecA) [9%Z; 9%Z] 0 =
  Fault DivByZero /\
  CreateDenseVectFromObj unpackZ (fun x => x) (object_of []) [9%Z; 9%Z] 0 =
  Done [9%Z; 9%Z].
Proof.
  split.
  - apply (CreateDenseVectFromObj_zero_slots unpackZ (fun x => x) (object_of vecA)
             [9%Z; 9%Z] (elems_of vecA)). vm_compute. reflexivity.
  - apply (CreateDenseVectFromObj_zero_slots unpackZ (fun x => x) (object_of [])
             [9%Z; 9%Z] []). vm_compute. reflexivity.
Defined.

Lemma dense_slot_holds_weight_without_collisions_witness :
  exists out,
    CreateDenseVectFromObj unpackZ (fun x => x) (object_of vecA) [9%Z; 9%Z; 9%Z; 9%Z] 4 =
      Done out /\
    out !! 1%nat = Some 2%Z /\ out !! 2%nat = Some 3%Z.
Proof.
  destruct (dense_slot_holds_weight_without_collisions unpackZ (fun x => x)
              (object_of vecA) [9%Z; 9%Z; 9%Z; 9%Z] 4 (elems_of vecA))
    as (out & Hrun & Hslot).
  - vm_compute. reflexivity.
  - reflexivity.
  - by vm_compute.
  - apply (bool_decide_unpack _). by vm_compute.
  - exists out. split; [exact Hrun |]. split.
    + apply (Hslot (mkElem 1 2%Z)). left.
    + apply (Hslot (mkElem 2 3%Z)). right. left.
Defined.

Lemma ComputeOverlapInfo_shorter_right_faults_witness :
  ComputeOverlapInfo unpackZ 10 (object_of vecS) (object_of vecT) = Fault OutOfBounds.
Proof.
  apply (ComputeOverlapInfo_shorter_right_faults unpackZ (elems_of vecS) (elems_of vecT))
    with (x := mkElem 2 1%Z);
    try first [vm_compute; reflexivity | cbn; lia].
  intros y [= <-]. reflexivity.
Defined.

Lemma ComputeOverlapInfo_shorter_right_returns_witness :
  exists r, ComputeOverlapInfo unpackZ 10 (object_of vecS) (object_of vecU) = Done r.
Proof.
  apply (ComputeOverlapInfo_shorter_right_returns unpackZ (elems_of vecS) (elems_of vecU))
    with (x := mkElem 2 1%Z) (y := mkElem 5 4%Z);
    first [vm_compute; reflexivity | by vm_compute | cbn; lia].
Defined.

